(** * Flow reader: the RSVP engine

    A shallow embedding of [services/rsvpEngine] (tokenizer, delay model,
    optimal-recognition-point calculator and the [useRSVP] playback hook)
    and of the windowing arithmetic of [ScrollReader] in
    [components/ReaderView.tsx], with the properties the specification
    states about them.

    Conventions of the embedding.
    - A JavaScript string is the list of its UTF-16 code units ([N]); all
      the characters the engine names (dashes, ellipsis, guillemets) are
      single code units, and the regular expressions carry no [u] flag, so
      they too work on code units.
    - JavaScript numbers that hold indices and lengths are [Z]; numbers
      that hold fractions and milliseconds are exact rationals [Q]
      (binary64 rounding is not modelled).
    - The React hook is a record of its state cells and refs together with
      the browser's table of pending timers and the log of callback
      invocations; an event handler, the re-render it causes and the
      effects of that render form one atomic step. *)

From Stdlib Require Import Ascii String.
From Stdlib Require Import List ZArith NArith QArith Qround Qminmax Bool Lia.
Import ListNotations.

(** ** JavaScript strings *)

Module JS.

Definition char := N.
Definition jsstring := list char.

(** An ASCII literal as a JavaScript string. *)
Definition lit (s : string) : jsstring :=
  map N_of_ascii (list_ascii_of_string s).

Definition em_dash : char := 8212%N.    (* U+2014 *)
Definition en_dash : char := 8211%N.    (* U+2013 *)
Definition ellipsis : char := 8230%N.   (* U+2026 *)
Definition laquo : char := 171%N.       (* U+00AB *)
Definition raquo : char := 187%N.       (* U+00BB *)
Definition figure_dash : char := 8210%N.     (* U+2012 *)
Definition horizontal_bar : char := 8213%N.  (* U+2015 *)
Definition dquote : char := 34%N.      (* the double quote *)
Definition space : char := 32%N.
Definition newline : char := 10%N.

Definition oneOf (cs : list char) (c : char) : bool :=
  existsb (N.eqb c) cs.

(** Code units of an ASCII literal, as a character class. *)
Definition class (s : string) : char -> bool := oneOf (lit s).

(** ECMAScript LineTerminator: LF, CR, LS, PS. *)
Definition isLineTerminator (c : char) : bool :=
  oneOf [10; 13; 8232; 8233]%N c.

(** ECMAScript [\s]: WhiteSpace and LineTerminator. *)
Definition isSpace (c : char) : bool :=
  oneOf [9; 10; 11; 12; 13; 32; 160; 5760; 8232; 8233; 8239; 8287;
         12288; 65279]%N c
  || ((8192 <=? c)%N && (c <=? 8202)%N).

(** [\d]: the ASCII digits. *)
Definition isDigit (c : char) : bool := ((48 <=? c)%N && (c <=? 57)%N).

(** [text.replace(/[...]/g, f)] for a one-character class: every matching
    code unit is replaced by the string [f] builds from it. *)
Definition replaceAll (cls : char -> bool) (f : char -> jsstring)
           (text : jsstring) : jsstring :=
  flat_map (fun c => if cls c then f c else [c]) text.

(** [text.split(/\s+/)]: the pieces between maximal runs of white space.
    A leading or trailing run leaves an empty first or last piece; the
    empty string splits into one empty piece.  [acc] is the piece being
    read, reversed; [inRun] tells that the previous unit was white space. *)
Fixpoint split_go (acc : jsstring) (inRun : bool) (s : jsstring)
  : list jsstring :=
  match s with
  | [] => [rev acc]
  | c :: s' =>
      if isSpace c
      then if inRun then split_go [] true s'
           else rev acc :: split_go [] true s'
      else split_go (c :: acc) false s'
  end.

Definition splitWhitespace (s : jsstring) : list jsstring :=
  split_go [] false s.

(** [parts.join(' ')]. *)
Fixpoint joinWithSpace (parts : list jsstring) : jsstring :=
  match parts with
  | [] => []
  | [p] => p
  | p :: rest => p ++ space :: joinWithSpace rest
  end.

(** [a.slice(start, end)] on arrays, with relative (negative) bounds. *)
Definition slice {A} (a : list A) (start stop : Z) : list A :=
  let len := Z.of_nat (length a) in
  let k := if (start <? 0)%Z then Z.max (len + start) 0 else Z.min start len in
  let final := if (stop <? 0)%Z then Z.max (len + stop) 0 else Z.min stop len in
  firstn (Z.to_nat (Z.max (final - k) 0)) (skipn (Z.to_nat k) a).

(** [a.findIndex(p)]: the first index whose element satisfies [p],
    or -1. *)
Fixpoint findIndex_from {A} (p : A -> bool) (a : list A) (i : Z) : Z :=
  match a with
  | [] => (-1)%Z
  | x :: a' => if p x then i else findIndex_from p a' (i + 1)%Z
  end.

Definition findIndex {A} (p : A -> bool) (a : list A) : Z :=
  findIndex_from p a 0%Z.

(** [a[i]]: [None] stands for [undefined]. *)
Definition at_index {A} (a : list A) (i : Z) : option A :=
  if (i <? 0)%Z then None else nth_error a (Z.to_nat i).

End JS.

Import JS.

(** ** Tokenizer *)

(** [PUNCTUATION_CLEANUP = /[\u2014\u2013]/g]: em dash and en dash. *)
Definition PUNCTUATION_CLEANUP (c : char) : bool := oneOf [em_dash; en_dash] c.

(** [PUNCTUATION_PADDING = /([\u2014\u2013\u2026])/g]: em dash, en dash,
    ellipsis. *)
Definition PUNCTUATION_PADDING (c : char) : bool :=
  oneOf [em_dash; en_dash; ellipsis] c.

Definition cleanText (text : jsstring) : jsstring :=
  match text with
  | [] => []
  | _ =>
      replaceAll PUNCTUATION_CLEANUP
        (fun m => if N.eqb m em_dash then [em_dash] else [en_dash]) text
  end.

Definition tokenize (text : jsstring) : list jsstring :=
  match text with
  | [] => []
  | _ =>
      let processed :=
        replaceAll PUNCTUATION_PADDING (fun c => [space; c; space])
          (replaceAll (N.eqb newline) (fun _ => [space]) text) in
      let rawTokens := splitWhitespace processed in
      filter (fun t => (0 <? length t)%nat) rawTokens
  end.

(** ** Delay model *)

(** [re.test(s)] for an unanchored expression: the match is attempted at
    every start position of [s], the end of input included. *)
Fixpoint testAnywhere (here : jsstring -> bool) (s : jsstring) : bool :=
  here s
  || match s with
     | [] => false
     | _ :: s' => testAnywhere here s'
     end.

(** What may follow the first unit of [cls+ opt? $]: more units of [cls],
    then at most one unit of [opt], then the end of input. *)
Fixpoint restOfPlus (cls opt : char -> bool) (s : jsstring) : bool :=
  match s with
  | [] => true
  | c :: s' =>
      (cls c && restOfPlus cls opt s')
      || (opt c && match s' with [] => true | _ :: _ => false end)
  end.

(** [cls+ opt? $] matched at the head of [s]. *)
Definition plusOptEnd (cls opt : char -> bool) (s : jsstring) : bool :=
  match s with
  | [] => false
  | c :: s' => cls c && restOfPlus cls opt s'
  end.

(** [cls $] matched at the head of [s]. *)
Definition oneEnd (cls : char -> bool) (s : jsstring) : bool :=
  match s with
  | [c] => cls c
  | _ => false
  end.

(** [cls] matched at the head of [s]. *)
Definition oneHere (cls : char -> bool) (s : jsstring) : bool :=
  match s with
  | c :: _ => cls c
  | [] => false
  end.

Definition quote : char -> bool := oneOf (dquote :: lit "'").

(** [STRIP_PUNCTUATION = /[.,!?;:\x22'()\u00AB\u00BB]/g], writing \x22 for
    the double quote and \u00AB, \u00BB for the guillemets. *)
Definition STRIP_PUNCTUATION : char -> bool :=
  oneOf (lit ".,!?;:" ++ dquote :: lit "'()" ++ [laquo; raquo]).

(** [STRONG_TERMINATORS = /[.?!]+[\x22']?$/]. *)
Definition STRONG_TERMINATORS : jsstring -> bool :=
  testAnywhere (plusOptEnd (class ".?!") quote).

(** [PAUSE_DELIMITERS = /[,:;]+[\x22']?$/]. *)
Definition PAUSE_DELIMITERS : jsstring -> bool :=
  testAnywhere (plusOptEnd (class ",:;") quote).

(** [MINOR_BREAKS = /[)\x22]$/]. *)
Definition MINOR_BREAKS : jsstring -> bool :=
  testAnywhere (oneEnd (oneOf (lit ")" ++ [dquote]))).

(** [NUMERIC_CHECK = /\d/]. *)
Definition NUMERIC_CHECK : jsstring -> bool :=
  testAnywhere (oneHere isDigit).

(** [a === b] on strings. *)
Fixpoint strictEq (a b : jsstring) : bool :=
  match a, b with
  | [], [] => true
  | x :: a', y :: b' => N.eqb x y && strictEq a' b'
  | _, _ => false
  end.

Definition calculateDelay (word : jsstring) (wpm : Q) : Q :=
  let baseDelay := 60000 / wpm in
  let cleanWord := replaceAll STRIP_PUNCTUATION (fun _ => []) word in
  let len := length cleanWord in
  let lengthFactor :=
    if (len <? 2)%nat then 0.6
    else if (len <? 4)%nat then 0.85
    else if (len <? 9)%nat then 1.0
    else if (len <? 14)%nat then 1.2
    else 1.5 in
  let punctuationFactor :=
    if STRONG_TERMINATORS word then 2.8
    else if PAUSE_DELIMITERS word
            || strictEq word [em_dash] || strictEq word [en_dash] then 2.0
    else if MINOR_BREAKS word || strictEq word [ellipsis] then 1.4
    else 1.0 in
  let lengthFactor :=
    if NUMERIC_CHECK word then lengthFactor * 1.3 else lengthFactor in
  let totalDelay := baseDelay * lengthFactor * punctuationFactor in
  Qmin (Qmax totalDelay 50) 3000.

(** ** Optimal recognition point *)

(** Class of the first group: \u00AB \x22 ' ( [ and the opening brace. *)
Definition ORP_PREFIX : char -> bool :=
  oneOf (laquo :: dquote :: lit "'([{").

(** Class of the third group: . , ! ? ; : \u00BB \x22 ' ) ] and the closing
    brace. *)
Definition ORP_SUFFIX : char -> bool :=
  oneOf (lit ".,!?;:" ++ raquo :: dquote :: lit "')]}").

(** [.] without the [s] flag. *)
Definition dot (c : char) : bool := negb (isLineTerminator c).

(** The lazy second group (a lazy run of [.]) followed by the greedy
    third group and [$]: the core is extended one unit at a time, and at
    each length the third group must take all that is left of the input. *)
Fixpoint lazyCore (core : jsstring) (rest : jsstring)
  : option (jsstring * jsstring) :=
  if forallb ORP_SUFFIX rest then Some (rev core, rest)
  else match rest with
       | [] => None
       | c :: rest' => if dot c then lazyCore (c :: core) rest' else None
       end.

(** The greedy first group: the longest prefix is tried first, and a
    shorter one only when the rest of the pattern fails after it. *)
Fixpoint greedyPrefix (prefix : jsstring) (rest : jsstring)
  : option (jsstring * jsstring * jsstring) :=
  let shorter :=
    match lazyCore [] rest with
    | Some (core, suffix) => Some (rev prefix, core, suffix)
    | None => None
    end in
  match rest with
  | c :: rest' =>
      if ORP_PREFIX c
      then match greedyPrefix (c :: prefix) rest' with
           | Some m => Some m
           | None => shorter
           end
      else shorter
  | [] => shorter
  end.

(** [word.match(re)] for the pattern made of [^], a greedy run of prefix
    units, a lazy run of [.], a greedy run of suffix units and [$], each run
    a capture group: the three groups of the match, or [None] for [null]. *)
Definition orpMatch (word : jsstring)
  : option (jsstring * jsstring * jsstring) :=
  greedyPrefix [] word.

(** [Math.floor(n * 0.3)]. *)
Definition floor03 (n : nat) : Z := Qfloor (inject_Z (Z.of_nat n) * 0.3).

Definition getORPIndex (word : jsstring) : Z :=
  match orpMatch word with
  | None => floor03 (length word)
  | Some (prefix, core, _) =>
      let len := length core in
      if (len =? 0)%nat then 0%Z
      else (Z.of_nat (length prefix) + floor03 len)%Z
  end.

(** ** Playback scheduler: the [useRSVP] hook *)

Module Scheduler.

(** The props of the hook.  The two callbacks are optional in the source;
    the flags tell whether the caller supplied them. *)
Record Props := {
  words : list jsstring;
  wpm : Q;
  initialIndex : Z;
  onCompleteGiven : bool;
  onProgressGiven : bool
}.

(** One invocation of a callback of the caller. *)
Inductive Call :=
| OnProgress (index : Z)
| OnComplete.

(** A timer of the browser: the handle [window.setTimeout] returned and
    the delay it was armed with.  Its callback is always [tick]. *)
Record Timer := { handle : nat; delay : Q }.

(** The cells of one mounted hook, the browser's pending timers and the
    callback invocations so far (oldest first). *)
Record Hook := {
  index : Z;
  isPlaying : bool;
  timerRef : option nat;
  isInternalUpdate : bool;
  pending : list Timer;
  nextHandle : nat;
  calls : list Call
}.

Definition setIndex (i : Z) (h : Hook) : Hook :=
  {| index := i; isPlaying := isPlaying h; timerRef := timerRef h;
     isInternalUpdate := isInternalUpdate h; pending := pending h;
     nextHandle := nextHandle h; calls := calls h |}.

Definition setIsPlaying (b : bool) (h : Hook) : Hook :=
  {| index := index h; isPlaying := b; timerRef := timerRef h;
     isInternalUpdate := isInternalUpdate h; pending := pending h;
     nextHandle := nextHandle h; calls := calls h |}.

Definition setTimerRef (r : option nat) (h : Hook) : Hook :=
  {| index := index h; isPlaying := isPlaying h; timerRef := r;
     isInternalUpdate := isInternalUpdate h; pending := pending h;
     nextHandle := nextHandle h; calls := calls h |}.

Definition setInternalUpdate (b : bool) (h : Hook) : Hook :=
  {| index := index h; isPlaying := isPlaying h; timerRef := timerRef h;
     isInternalUpdate := b; pending := pending h;
     nextHandle := nextHandle h; calls := calls h |}.

Definition setPending (ts : list Timer) (h : Hook) : Hook :=
  {| index := index h; isPlaying := isPlaying h; timerRef := timerRef h;
     isInternalUpdate := isInternalUpdate h; pending := ts;
     nextHandle := nextHandle h; calls := calls h |}.

Definition invoke (c : Call) (h : Hook) : Hook :=
  {| index := index h; isPlaying := isPlaying h; timerRef := timerRef h;
     isInternalUpdate := isInternalUpdate h; pending := pending h;
     nextHandle := nextHandle h; calls := calls h ++ [c] |}.

(** [clearTimeout(id)]: the timer with that handle, if still pending, is
    dropped; a handle that already fired or was cleared is ignored. *)
Definition clearTimeout (id : nat) (h : Hook) : Hook :=
  setPending (filter (fun t => negb (Nat.eqb (handle t) id)) (pending h)) h.

(** [window.setTimeout(() => tick(), d)]: a fresh, non-zero handle. *)
Definition setTimeout (d : Q) (h : Hook) : nat * Hook :=
  let id := nextHandle h in
  (id,
   {| index := index h; isPlaying := isPlaying h; timerRef := timerRef h;
      isInternalUpdate := isInternalUpdate h;
      pending := pending h ++ [{| handle := id; delay := d |}];
      nextHandle := S id; calls := calls h |}).

(** The state of a freshly mounted hook: handles start at 1, so every
    handle stored in [timerRef] is truthy. *)
Definition mount (p : Props) : Hook :=
  {| index := initialIndex p; isPlaying := false; timerRef := None;
     isInternalUpdate := false; pending := []; nextHandle := 1;
     calls := [] |}.

Definition wordsLength (p : Props) : Z := Z.of_nat (length (words p)).

Definition stop (h : Hook) : Hook :=
  let h :=
    match timerRef h with
    | Some id => setTimerRef None (clearTimeout id h)
    | None => h
    end in
  setIsPlaying false h.

(** [tick]: the updater passed to [setIndex], run on the current index. *)
Definition tick (p : Props) (h : Hook) : Hook :=
  let prevIndex := index h in
  let nextIndex := (prevIndex + 1)%Z in
  let h :=
    if onProgressGiven p
    then invoke (OnProgress nextIndex) (setInternalUpdate true h)
    else h in
  if (nextIndex >=? wordsLength p)%Z
  then
    let h := stop h in
    let h := if onCompleteGiven p then invoke OnComplete h else h in
    setIndex prevIndex h
  else setIndex nextIndex h.

(** The cleanup of the timer effect. *)
Definition effectCleanup (h : Hook) : Hook :=
  match timerRef h with
  | Some id => clearTimeout id h
  | None => h
  end.

(** The body of the timer effect. *)
Definition effectBody (p : Props) (h : Hook) : Hook :=
  if isPlaying h && (index h <? wordsLength p)%Z
  then
    let currentWord := at_index (words p) (index h) in
    let d :=
      calculateDelay
        (match currentWord with Some w => w | None => [] end) (wpm p) in
    let (id, h) := setTimeout d h in
    setTimerRef (Some id) h
  else h.

(** A render in which the dependencies of the timer effect changed: the
    cleanup of the previous run, then the body. *)
Definition rerunEffect (p : Props) (h : Hook) : Hook :=
  effectBody p (effectCleanup h).

(** The render after an event handler that took the hook from [before] to
    [after]: the timer effect runs again when [isPlaying] or [index]
    changed. *)
Definition commit (p : Props) (before after : Hook) : Hook :=
  if Bool.eqb (isPlaying before) (isPlaying after)
     && (index before =? index after)%Z
  then after
  else rerunEffect p after.

Definition togglePlay (p : Props) (h : Hook) : Hook :=
  if (index h >=? wordsLength p - 1)%Z
  then setIsPlaying true (setIndex 0%Z h)
  else setIsPlaying (negb (isPlaying h)) h.

Definition seek (p : Props) (newIndex : Z) (h : Hook) : Hook :=
  let clamped := Z.max 0 (Z.min newIndex (wordsLength p - 1)) in
  let h := setInternalUpdate true (setIndex clamped h) in
  if onProgressGiven p then invoke (OnProgress clamped) h else h.

(** What can happen to a mounted hook: a call of one of the three
    operations it returns, the expiry of a pending timer, or a render
    caused from outside in which the callbacks (hence [tick]) are fresh. *)
Inductive Event :=
| TogglePlay
| Seek (newIndex : Z)
| Stop
| TimerFires
| Rerender.

(** One event, with the render that follows it.  A timer can only fire
    while it is pending: the oldest pending timer leaves the table and its
    callback runs [tick]. *)
Definition step (p : Props) (e : Event) (h : Hook) : option Hook :=
  match e with
  | TogglePlay => Some (commit p h (togglePlay p h))
  | Seek n => Some (commit p h (seek p n h))
  | Stop => Some (commit p h (stop h))
  | TimerFires =>
      match pending h with
      | [] => None
      | _ :: others => Some (commit p h (tick p (setPending others h)))
      end
  | Rerender => Some (rerunEffect p h)
  end.

Fixpoint run (p : Props) (es : list Event) (h : Hook) : option Hook :=
  match es with
  | [] => Some h
  | e :: es' =>
      match step p e h with
      | Some h' => run p es' h'
      | None => None
      end
  end.

Definition progressIndices (cs : list Call) : list Z :=
  flat_map (fun c => match c with OnProgress i => [i] | OnComplete => [] end)
           cs.

Definition completions (cs : list Call) : nat :=
  length (filter (fun c => match c with OnComplete => true | _ => false end)
                 cs).

End Scheduler.

(** ** Reader view *)

Module Paragraph.

Record ParagraphData := {
  text : jsstring;
  startIndex : Z;
  wordCount : Z;
  words : list jsstring
}.

End Paragraph.

(** [Math.floor(book.progress * flatWords.length) || 0]: the index a
    session resumes at. *)
Definition savedIdx (progress : Q) (flatWords : list jsstring) : Z :=
  let v := Qfloor (progress * inject_Z (Z.of_nat (length flatWords))) in
  if (v =? 0)%Z then 0%Z else v.

Module ScrollReader.

Import Paragraph.

Definition WINDOW_BUFFER : Z := 40.

Definition containsIndex (currentIndex : Z) (p : ParagraphData) : bool :=
  (currentIndex >=? startIndex p)%Z
  && (currentIndex <? startIndex p + wordCount p)%Z.

Definition activeParagraphIndex (paragraphs : list ParagraphData)
           (currentIndex : Z) : Z :=
  findIndex (containsIndex currentIndex) paragraphs.

Definition anchorIndex (paragraphs : list ParagraphData) (currentIndex : Z)
  : Z :=
  let a := activeParagraphIndex paragraphs currentIndex in
  if (a =? -1)%Z then 0%Z else a.

Definition startIndex (paragraphs : list ParagraphData) (currentIndex : Z)
  : Z :=
  Z.max 0 (anchorIndex paragraphs currentIndex - WINDOW_BUFFER).

Definition endIndex (paragraphs : list ParagraphData) (currentIndex : Z)
  : Z :=
  Z.min (Z.of_nat (length paragraphs))
        (anchorIndex paragraphs currentIndex + WINDOW_BUFFER + 1).

Definition visibleParagraphs (paragraphs : list ParagraphData)
           (currentIndex : Z) : list ParagraphData :=
  slice paragraphs (startIndex paragraphs currentIndex)
        (endIndex paragraphs currentIndex).

End ScrollReader.

(** ** More of the JavaScript library *)

Module JSMore.

(** [s.split(sep)] for a one-unit separator string: the pieces between
    the occurrences of [sep]; the empty string gives one empty piece. *)
Fixpoint splitOn_go (sep : char) (acc : jsstring) (s : jsstring)
  : list jsstring :=
  match s with
  | [] => [rev acc]
  | c :: s' =>
      if N.eqb c sep then rev acc :: splitOn_go sep [] s'
      else splitOn_go sep (c :: acc) s'
  end.

Definition splitOn (sep : char) (s : jsstring) : list jsstring :=
  splitOn_go sep [] s.

(** [parts.join(sep)] for a one-unit separator string. *)
Fixpoint joinWith (sep : char) (parts : list jsstring) : jsstring :=
  match parts with
  | [] => []
  | [p] => p
  | p :: rest => p ++ sep :: joinWith sep rest
  end.

(** [s.trim()]: white space and line terminators (the units of [\s]) are
    dropped at both ends. *)
Fixpoint trimStart (s : jsstring) : jsstring :=
  match s with
  | [] => []
  | c :: s' => if isSpace c then trimStart s' else s
  end.

Definition trimEnd (s : jsstring) : jsstring := rev (trimStart (rev s)).

Definition trim (s : jsstring) : jsstring := trimEnd (trimStart s).

(** [a.slice(start)]: to the end. *)
Definition sliceFrom {A} (a : list A) (start : Z) : list A :=
  slice a start (Z.of_nat (length a)).

(** [a.pop()], for what is left in [a]. *)
Definition pop {A} (a : list A) : list A := removelast a.

(** [s.lastIndexOf(c)] for a one-unit string [c]: the last position of
    [c], or -1. *)
Fixpoint lastIndexOf_from (c : char) (s : jsstring) (i found : Z) : Z :=
  match s with
  | [] => found
  | x :: s' => lastIndexOf_from c s' (i + 1)%Z (if N.eqb x c then i else found)
  end.

Definition lastIndexOf (c : char) (s : jsstring) : Z :=
  lastIndexOf_from c s 0%Z (-1)%Z.

(** [s.substring(start, end)]: both bounds are clamped to the string and
    swapped when out of order. *)
Definition substring (s : jsstring) (start stop : Z) : jsstring :=
  let len := Z.of_nat (length s) in
  let a := Z.min (Z.max start 0) len in
  let b := Z.min (Z.max stop 0) len in
  let from := Z.min a b in
  let to := Z.max a b in
  firstn (Z.to_nat (to - from)) (skipn (Z.to_nat from) s).

(** [ToInt32]: the 32-bit two's complement reading of an integer. *)
Definition toInt32 (x : Z) : Z :=
  ((x + 2147483648) mod 4294967296 - 2147483648)%Z.

(** [x << n] and [x >> n] for a count [n] below 32. *)
Definition shl (x n : Z) : Z := toInt32 (Z.shiftl (toInt32 x) n).
Definition sar (x n : Z) : Z := Z.shiftr (toInt32 x) n.

End JSMore.

Import JSMore.

(** ** Reader view: parsing a book, the displayed word *)

Module Reader.

Import Paragraph.

(** The three accumulators of the parsing effect of [ReaderView]. *)
Record Parsed := {
  parsedParagraphs : list ParagraphData;
  flatWords : list jsstring;
  globalWordCount : Z
}.

(** The body of [chunks.forEach]: a blank chunk, or one without tokens,
    is skipped. *)
Definition parseChunk (st : Parsed) (chunk : jsstring) : Parsed :=
  let trimmed := trim chunk in
  match trimmed with
  | [] => st
  | _ :: _ =>
      let tokens := tokenize trimmed in
      if (length tokens =? 0)%nat then st
      else
        let normalizedText := joinWithSpace tokens in
        {| parsedParagraphs :=
             parsedParagraphs st
             ++ [{| text := normalizedText;
                    startIndex := globalWordCount st;
                    wordCount := Z.of_nat (length tokens);
                    words := tokens |}];
           flatWords := flatWords st ++ tokens;
           globalWordCount :=
             (globalWordCount st + Z.of_nat (length tokens))%Z |}
  end.

(** The parsing effect, up to [setAllWords]. *)
Definition parseBook (content : jsstring) : Parsed :=
  let raw := cleanText content in
  let chunks := splitOn newline raw in
  fold_left parseChunk chunks
    {| parsedParagraphs := []; flatWords := []; globalWordCount := 0 |}.

(** The three parts the RSVP view shows of the current word. *)
Definition leftPart (safeWord : jsstring) : jsstring :=
  slice safeWord 0 (getORPIndex safeWord).

Definition pivotChar (safeWord : jsstring) : jsstring :=
  match at_index safeWord (getORPIndex safeWord) with
  | Some c => [c]
  | None => []
  end.

Definition rightPart (safeWord : jsstring) : jsstring :=
  sliceFrom safeWord (getORPIndex safeWord + 1).

(** [content.split(/\s+/).length], the word count stored with a book. *)
Definition countWords (content : jsstring) : Z :=
  Z.of_nat (length (splitWhitespace content)).

End Reader.

(** ** EPUB service: paths inside the archive *)

Module Epub.

Definition slash : char := 47%N.

(** The body of the loop of [resolvePath]. *)
Definition resolveStep (stack : list jsstring) (part : jsstring)
  : list jsstring :=
  if strictEq part (lit ".") then stack
  else if strictEq part (lit "..") then pop stack
  else stack ++ [part].

Definition resolvePath (base relative : jsstring) : jsstring :=
  let stack := splitOn slash base in
  let parts := splitOn slash relative in
  let stack := pop stack in
  let stack := fold_left resolveStep parts stack in
  joinWith slash stack.

(** [opfPath.substring(0, opfPath.lastIndexOf('/') + 1)]. *)
Definition opfDir (opfPath : jsstring) : jsstring :=
  substring opfPath 0 (lastIndexOf slash opfPath + 1).

End Epub.

(** ** The library: the books of the application *)

Module App.

Inductive BookFolder := library | favorites | read | notes.

Definition folderEq (a b : BookFolder) : bool :=
  match a, b with
  | library, library | favorites, favorites | read, read | notes, notes =>
      true
  | _, _ => false
  end.

(** A book.  The interface declares [folder] as required, but the code
    tests for its absence ([book.folder || 'library'], [!b.folder]), so a
    stored book may lack it. *)
Record Book := {
  id : jsstring;
  title : jsstring;
  author : jsstring;
  content : jsstring;
  coverUrl : option jsstring;
  progress : Q;
  wordCount : Z;
  lastRead : Z;
  isGenerated : option bool;
  folder : option BookFolder
}.

Inductive AppView := LIBRARY | READER.

Record State := {
  view : AppView;
  books : list Book;
  currentBookId : option jsstring
}.


Definition withProgress (p : Q) (b : Book) : Book :=
  {| id := id b; title := title b; author := author b; content := content b;
     coverUrl := coverUrl b; progress := p;
     wordCount := wordCount b; lastRead := lastRead b;
     isGenerated := isGenerated b; folder := folder b |}.

Definition withFolder (f : BookFolder) (b : Book) : Book :=
  {| id := id b; title := title b; author := author b; content := content b;
     coverUrl := coverUrl b; progress := progress b;
     wordCount := wordCount b; lastRead := lastRead b;
     isGenerated := isGenerated b; folder := Some f |}.


Definition handleUpdateProgress (bookId : jsstring) (p : Q) (s : State)
  : State :=
  {| view := view s;
     books := map (fun b => if strictEq (id b) bookId
                            then withProgress p b else b) (books s);
     currentBookId := currentBookId s |}.

(** The folder a book goes back to when its folder is toggled off. *)
Definition defaultFolder (book : Book) : BookFolder :=
  if match isGenerated book with Some true => true | _ => false end
     || strictEq (author book) (lit "Note")
  then notes else library.

Definition moveBook (bookId : jsstring) (targetFolder : BookFolder)
           (book : Book) : Book :=
  if negb (strictEq (id book) bookId) then book
  else if match folder book with
          | Some f => folderEq f targetFolder
          | None => false
          end
       then withFolder (defaultFolder book) book
       else withFolder targetFolder book.

Definition handleMoveBook (bookId : jsstring) (targetFolder : BookFolder)
           (s : State) : State :=
  {| view := view s;
     books := map (moveBook bookId targetFolder) (books s);
     currentBookId := currentBookId s |}.

Definition isCurrent (bookId : jsstring) (s : State) : bool :=
  match currentBookId s with
  | Some c => strictEq c bookId
  | None => false
  end.

Definition handleDeleteBook (bookId : jsstring) (s : State) : State :=
  let kept := filter (fun b => negb (strictEq (id b) bookId)) (books s) in
  if isCurrent bookId s
  then {| view := LIBRARY; books := kept; currentBookId := None |}
  else {| view := view s; books := kept; currentBookId := currentBookId s |}.



(** [books.find(b => b.id === currentBookId)]. *)
Definition currentBook (s : State) : option Book :=
  match currentBookId s with
  | Some c => find (fun b => strictEq (id b) c) (books s)
  | None => None
  end.

(** The books a folder section of [LibraryView] lists. *)
Definition folderBooks (f : BookFolder) (bs : list Book) : list Book :=
  filter (fun b =>
            match f with
            | library =>
                match folder b with
                | Some g => folderEq g library
                | None => true
                end
            | _ =>
                match folder b with
                | Some g => folderEq g f
                | None => false
                end
            end) bs.

End App.

(** ** Generated covers: the design drawn from the title *)

Module Cover.

(** The loop over the code units of the title. *)
Definition titleHash (title : jsstring) : Z :=
  fold_left (fun hash c => (Z.of_N c + (shl hash 5 - hash))%Z) title 0%Z.

(** [a % b] on integers: the remainder has the sign of [a]. *)
Definition jsRem (a b : Z) : Z := Z.rem a b.

Record Design := {
  hue : Z;
  sat : Z;
  lightness : Z;
  accentHue : Z;
  layoutIndex : Z;
  shapePos : Z;
  shapeScale : Q
}.

Definition design (title : jsstring) : Design :=
  let hash := titleHash title in
  let hue := Z.abs (jsRem hash 360) in
  let sat := (20 + jsRem (Z.abs (sar hash 2)) 40)%Z in
  let lit := (15 + jsRem (Z.abs (sar hash 4)) 20)%Z in
  {| hue := hue;
     sat := sat;
     lightness := lit;
     accentHue := jsRem (hue + 45) 360;
     layoutIndex := jsRem (Z.abs (sar hash 3)) 4;
     shapePos := jsRem (Z.abs (sar hash 5)) 100;
     shapeScale :=
       0.5 + inject_Z (jsRem (Z.abs (sar hash 6)) 100) / 100 |}.

End Cover.

(** ** Auxiliary definitions *)

(** The token closed by a delimiter: nothing when no unit was read. *)
Definition emit (acc : jsstring) : list jsstring :=
  match acc with
  | [] => []
  | _ :: _ => [rev acc]
  end.

(** A one-pass reading of [tokenize], used to reason about it: white space
    closes the token being read, a padded glyph closes it and stands as a
    token of its own, any other unit extends it. *)
Fixpoint scan (acc : jsstring) (s : jsstring) : list jsstring :=
  match s with
  | [] => emit acc
  | c :: s' =>
      if isSpace c then emit acc ++ scan [] s'
      else if PUNCTUATION_PADDING c then emit acc ++ [c] :: scan [] s'
      else scan (c :: acc) s'
  end.

(** A unit that is neither white space nor a padded glyph. *)
Definition ordinary (c : char) : Prop :=
  isSpace c = false /\ PUNCTUATION_PADDING c = false.

(** The shape of a token: a non-empty run of ordinary units, or a padded
    glyph alone. *)
Definition atomic (t : jsstring) : Prop :=
  (t <> [] /\ Forall ordinary t)
  \/ (exists c, PUNCTUATION_PADDING c = true /\ t = [c]).


(** The scenario of the specification: play is toggled once, then the
    timer fires five times. *)
Definition autoplay5 : list Scheduler.Event :=
  [Scheduler.TogglePlay; Scheduler.TimerFires; Scheduler.TimerFires;
   Scheduler.TimerFires; Scheduler.TimerFires; Scheduler.TimerFires].

(** The five tokens of ["Hello, world. This is great!"], played at 300
    words per minute with both callbacks supplied. *)
Definition helloProps (initialIndex : Z) : Scheduler.Props :=
  {| Scheduler.words := tokenize (lit "Hello, world. This is great!");
     Scheduler.wpm := 300;
     Scheduler.initialIndex := initialIndex;
     Scheduler.onCompleteGiven := true;
     Scheduler.onProgressGiven := true |}.

(** A hook on an empty word stream. *)
Definition emptyProps : Scheduler.Props :=
  {| Scheduler.words := [];
     Scheduler.wpm := 300;
     Scheduler.initialIndex := 0;
     Scheduler.onCompleteGiven := true;
     Scheduler.onProgressGiven := true |}.

(** The timer discipline: no timer is pending, or exactly one is and
    [timerRef] holds its handle. *)
Definition oneTimer (h : Scheduler.Hook) : Prop :=
  Scheduler.pending h = []
  \/ exists t, Scheduler.pending h = [t]
               /\ Scheduler.timerRef h = Some (Scheduler.handle t).

(** Stopped with nothing pending. *)
Definition quiet (h : Scheduler.Hook) : Prop :=
  Scheduler.isPlaying h = false /\ Scheduler.pending h = [].

(** An event that starts playback again. *)
Definition restarts (e : Scheduler.Event) : bool :=
  match e with
  | Scheduler.TogglePlay => true
  | _ => false
  end.

(** The progress reports that the explicit [seek] calls among [es] make. *)
Definition seekCalls (p : Scheduler.Props) (es : list Scheduler.Event)
  : list Scheduler.Call :=
  flat_map
    (fun e =>
       match e with
       | Scheduler.Seek n =>
           if Scheduler.onProgressGiven p
           then [Scheduler.OnProgress
                   (Z.max 0 (Z.min n (Scheduler.wordsLength p - 1)))]
           else []
       | _ => []
       end) es.

(** Strictly increasing sequences of indices. *)
Fixpoint increasing (l : list Z) : Prop :=
  match l with
  | [] => True
  | x :: l' =>
      match l' with
      | [] => True
      | y :: _ => (x < y)%Z
      end /\ increasing l'
  end.

(** The global index lies in the token range of the paragraph. *)
Definition inParagraph (currentIndex : Z) (p : Paragraph.ParagraphData)
  : Prop :=
  (Paragraph.startIndex p <= currentIndex
   < Paragraph.startIndex p + Paragraph.wordCount p)%Z.

(** Three paragraphs of two, three and one tokens. *)
Definition sampleParagraphs : list Paragraph.ParagraphData :=
  [ {| Paragraph.text := lit "Hello, world.";
       Paragraph.startIndex := 0; Paragraph.wordCount := 2;
       Paragraph.words := [lit "Hello,"; lit "world."] |};
    {| Paragraph.text := lit "This is great!";
       Paragraph.startIndex := 2; Paragraph.wordCount := 3;
       Paragraph.words := [lit "This"; lit "is"; lit "great!"] |};
    {| Paragraph.text := lit "End.";
       Paragraph.startIndex := 5; Paragraph.wordCount := 1;
       Paragraph.words := [lit "End."] |} ].

(** The word the timer effect reads at the current index. *)
Definition wordAt (p : Scheduler.Props) (h : Scheduler.Hook) : jsstring :=
  match at_index (Scheduler.words p) (Scheduler.index h) with
  | Some w => w
  | None => []
  end.

(** The guard of the timer effect. *)
Definition shouldRun (p : Scheduler.Props) (h : Scheduler.Hook) : bool :=
  Scheduler.isPlaying h
  && (Scheduler.index h <? Scheduler.wordsLength p)%Z.

(** Timer and state agree: while the guard of the effect holds, exactly
    one timer is pending, armed with the delay of the current word and
    held by [timerRef]; otherwise none is. *)
Definition armed (p : Scheduler.Props) (h : Scheduler.Hook) : Prop :=
  if shouldRun p h
  then exists id,
      Scheduler.pending h
      = [{| Scheduler.handle := id;
            Scheduler.delay := calculateDelay (wordAt p h) (Scheduler.wpm p) |}]
      /\ Scheduler.timerRef h = Some id
  else Scheduler.pending h = [].

(** The progress reports of [n] ticks that start after index [from]. *)
Definition progressRun (from : Z) (n : nat) : list Scheduler.Call :=
  map (fun k => Scheduler.OnProgress (from + 1 + Z.of_nat k)%Z) (seq 0 n).

(** A stream of a hundred tokens. *)
Definition hundredProps : Scheduler.Props :=
  {| Scheduler.words := repeat (lit "word") 100;
     Scheduler.wpm := 300;
     Scheduler.initialIndex := 0;
     Scheduler.onCompleteGiven := true;
     Scheduler.onProgressGiven := true |}.

(** The paragraphs tile the word stream from position [from]: each one
    starts where the previous one ended, holds at least one token, counts
    its own tokens, shows them joined by spaces, and the tokens of all of
    them, in order, are exactly [flat]. *)
Fixpoint tiles (from : Z) (ps : list Paragraph.ParagraphData)
         (flat : list jsstring) : Prop :=
  match ps with
  | [] => flat = []
  | q :: ps' =>
      Paragraph.startIndex q = from
      /\ Paragraph.wordCount q = Z.of_nat (length (Paragraph.words q))
      /\ Paragraph.words q <> []
      /\ Paragraph.text q = joinWithSpace (Paragraph.words q)
      /\ exists rest,
           flat = Paragraph.words q ++ rest
           /\ tiles (from + Paragraph.wordCount q) ps' rest
  end.

(** No unit of the text is a glyph that [tokenize] pads. *)
Definition unpadded (s : jsstring) : Prop :=
  Forall (fun c => PUNCTUATION_PADDING c = false) s.

(** A book of two lines, with a blank line between them. *)
Definition sampleContent : jsstring :=
  lit "Hello, world." ++ newline :: newline :: lit "  This is great!".

(** A path none of whose segments is [.] or [..]. *)
Definition plainPath (path : jsstring) : Prop :=
  Forall (fun part => strictEq part (lit ".") = false
                      /\ strictEq part (lit "..") = false)
         (splitOn Epub.slash path).

(** A path segment: no slash in it. *)
Definition segment (s : jsstring) : Prop :=
  Forall (fun c => N.eqb c Epub.slash = false) s.

(** A library of three books; the second is a favourite note. *)
Definition sampleBook (bookId : string) (by_ : string)
           (f : option App.BookFolder) : App.Book :=
  {| App.id := lit bookId; App.title := lit "A title";
     App.author := lit by_; App.content := lit "Some words to read.";
     App.coverUrl := None; App.progress := 0; App.wordCount := 4;
     App.lastRead := 0; App.isGenerated := None; App.folder := f |}.

Definition sampleLibrary : App.State :=
  {| App.view := App.READER;
     App.books := [ sampleBook "b1" "Ann" (Some App.library);
                    sampleBook "b2" "Note" (Some App.favorites);
                    sampleBook "b3" "Cy" None ];
     App.currentBookId := Some (lit "b2") |}.
(** * Properties *)

(** ** Tokenizer *)

Section Tokenizer.

Lemma padding_not_space c : PUNCTUATION_PADDING c = true -> isSpace c = false.
Proof.
  unfold PUNCTUATION_PADDING, oneOf; simpl.
  rewrite !orb_true_iff, !N.eqb_eq.
  intros [-> | [-> | [-> | H]]]; try reflexivity; discriminate.
Qed.

Lemma filter_emit acc rest :
  filter (fun t => (0 <? length t)%nat) (rev acc :: rest)
  = emit acc ++ filter (fun t => (0 <? length t)%nat) rest.
Proof.
  destruct acc as [|c acc]; [reflexivity|].
  unfold emit. cbn [filter]. rewrite length_rev. reflexivity.
Qed.

(** Splitting the padded text and dropping the empty pieces is one scan of
    the original text. *)
Lemma split_scan s : forall acc inRun,
  (inRun = true -> acc = []) ->
  filter (fun t => (0 <? length t)%nat)
    (split_go acc inRun
       (replaceAll PUNCTUATION_PADDING (fun c => [space; c; space])
          (replaceAll (N.eqb newline) (fun _ => [space]) s)))
  = scan acc s.
Proof.
  induction s as [|c s IH]; intros acc inRun Hrun.
  - cbn [replaceAll flat_map split_go scan]. rewrite filter_emit.
    apply app_nil_r.
  - unfold replaceAll in *. cbn [flat_map]. rewrite flat_map_app.
    assert (Hclose : forall rest,
      filter (fun t => (0 <? length t)%nat)
             (if inRun then rest else rev acc :: rest)
      = emit acc ++ filter (fun t => (0 <? length t)%nat) rest).
    { intros rest. destruct inRun; [|apply filter_emit].
      rewrite (Hrun eq_refl). reflexivity. }
    destruct (N.eqb newline c) eqn:Hnl.
    + apply N.eqb_eq in Hnl. subst c.
      cbn [flat_map app]. change (PUNCTUATION_PADDING space) with false.
      cbn [app split_go scan]. change (isSpace space) with true.
      change (isSpace newline) with true. cbn iota.
      rewrite Hclose, (IH [] true (fun _ => eq_refl)). reflexivity.
    + cbn [flat_map app]. destruct (PUNCTUATION_PADDING c) eqn:Hpad.
      * pose proof (padding_not_space _ Hpad) as Hsp.
        cbn [app scan split_go]. rewrite Hsp, Hpad.
        change (isSpace space) with true. cbn iota.
        rewrite Hclose, filter_emit, (IH [] true (fun _ => eq_refl)).
        reflexivity.
      * cbn [app scan split_go]. rewrite Hpad.
        destruct (isSpace c) eqn:Hsp.
        -- rewrite Hclose, (IH [] true (fun _ => eq_refl)). reflexivity.
        -- apply IH. discriminate.
Qed.

Lemma tokenize_scan text : tokenize text = scan [] text.
Proof.
  destruct text as [|c text]; [reflexivity|].
  unfold tokenize, splitWhitespace. apply split_scan. discriminate.
Qed.

Lemma emit_atomic acc :
  Forall ordinary acc -> Forall atomic (emit acc).
Proof.
  intros H. destruct acc as [|c acc]; [constructor|].
  constructor; [|constructor]. left. split.
  - simpl. intros E. apply app_eq_nil in E. destruct E; discriminate.
  - apply Forall_rev. exact H.
Qed.

Lemma scan_atomic s : forall acc,
  Forall ordinary acc -> Forall atomic (scan acc s).
Proof.
  induction s as [|c s IH]; intros acc Hacc; simpl.
  - apply emit_atomic; assumption.
  - destruct (isSpace c) eqn:Hsp.
    + apply Forall_app.
      split; [apply emit_atomic; assumption | apply IH; constructor].
    + destruct (PUNCTUATION_PADDING c) eqn:Hpad.
      * apply Forall_app. split; [apply emit_atomic; assumption|].
        constructor; [right; exists c; auto | apply IH; constructor].
      * apply IH. constructor; [split; assumption | assumption].
Qed.

Lemma scan_ordinary t : forall acc rest,
  Forall ordinary t -> scan acc (t ++ rest) = scan (rev t ++ acc) rest.
Proof.
  induction t as [|c t IH]; intros acc rest H; [reflexivity|].
  inversion H as [|? ? [Hsp Hpad] Ht]; subst.
  simpl. rewrite Hsp, Hpad, IH by assumption.
  rewrite <- app_assoc. reflexivity.
Qed.

Lemma emit_rev t : t <> [] -> emit (rev t) = [t].
Proof.
  intros Hne. destruct (rev t) eqn:E.
  - apply (f_equal (@rev _)) in E. rewrite rev_involutive in E. contradiction.
  - cbn [emit]. rewrite <- E, rev_involutive. reflexivity.
Qed.

Lemma scan_token t rest :
  atomic t -> scan [] (t ++ space :: rest) = t :: scan [] rest.
Proof.
  intros [[Hne Hord] | [c [Hpad ->]]].
  - rewrite scan_ordinary by assumption. rewrite app_nil_r.
    simpl. change (isSpace space) with true. cbn iota.
    rewrite emit_rev by assumption. reflexivity.
  - simpl. rewrite (padding_not_space _ Hpad), Hpad.
    change (isSpace space) with true. reflexivity.
Qed.

Lemma scan_last_token t : atomic t -> scan [] t = [t].
Proof.
  intros [[Hne Hord] | [c [Hpad ->]]].
  - rewrite <- (app_nil_r t) at 1. rewrite scan_ordinary by assumption.
    rewrite app_nil_r. simpl. apply emit_rev; assumption.
  - simpl. rewrite (padding_not_space _ Hpad), Hpad. reflexivity.
Qed.

Lemma scan_join ts : Forall atomic ts -> scan [] (joinWithSpace ts) = ts.
Proof.
  induction ts as [|t ts IH]; intros H; [reflexivity|].
  inversion H as [|? ? Ht Hts]; subst.
  destruct ts as [|t' ts].
  - apply scan_last_token; assumption.
  - change (joinWithSpace (t :: t' :: ts))
      with (t ++ space :: joinWithSpace (t' :: ts)).
    rewrite scan_token by assumption. rewrite IH by assumption. reflexivity.
Qed.

(** C7. Tokenizer idempotence: for every text, tokenizing the space-joined
    tokens of the text gives back the tokens of the text. *)
Theorem tokenize_idempotent (text : jsstring) :
  tokenize (joinWithSpace (tokenize text)) = tokenize text.
Proof.
  rewrite !tokenize_scan. apply scan_join. apply scan_atomic. constructor.
Qed.

(** The replacement callback of [cleanText] gives back the unit it is
    given, and the class it runs on holds the two canonical dashes only:
    the function changes no text. *)
Lemma cleanText_identity (text : jsstring) : cleanText text = text.
Proof.
  destruct text as [|c0 text0]; [reflexivity|].
  unfold cleanText, replaceAll. generalize (c0 :: text0). clear.
  induction l as [|c l IH]; [reflexivity|].
  cbn [flat_map]. rewrite IH.
  destruct (PUNCTUATION_CLEANUP c) eqn:Hc; [|reflexivity].
  destruct (N.eqb c em_dash) eqn:He.
  - apply N.eqb_eq in He. subst c. reflexivity.
  - unfold PUNCTUATION_CLEANUP, oneOf in Hc. cbn [existsb] in Hc.
    rewrite He in Hc. rewrite orb_false_l, orb_false_r in Hc.
    apply N.eqb_eq in Hc. subst c. reflexivity.
Qed.

(** C10, at the failing input.  A dash that is neither the em dash nor the
    en dash (here the horizontal bar U+2015, and the figure dash U+2012)
    is outside the class [cleanText] replaces and comes back unchanged,
    not as one of the two canonical dashes. *)
Theorem cleanText_keeps_exotic_dash :
  cleanText [horizontal_bar] = [horizontal_bar]
  /\ cleanText (lit "a" ++ figure_dash :: lit "b")
     = lit "a" ++ figure_dash :: lit "b"
  /\ PUNCTUATION_CLEANUP horizontal_bar = false
  /\ PUNCTUATION_CLEANUP figure_dash = false
  /\ horizontal_bar <> em_dash /\ horizontal_bar <> en_dash.
Proof.
  repeat split; try reflexivity; discriminate.
Qed.

End Tokenizer.

(** ** Delay model *)

Section DelayModel.

(** C2, as stated, fails: the delay of ["great!"] at 300 wpm is not 476. *)
Lemma calculateDelay_great_not_476 :
  ~ calculateDelay (lit "great!") 300 == 476.
Proof.
  intros H. vm_compute in H. discriminate.
Qed.

(** C2, amended.  The delay of ["great!"] at 300 wpm is 560 ms: the base
    delay 200 ms, times the length factor 1.0 of the stripped core
    ["great"] (five units: not below 4, below 9), times the punctuation
    factor 2.8 of a sentence terminator. *)
Theorem calculateDelay_great_560 :
  replaceAll STRIP_PUNCTUATION (fun _ => []) (lit "great!") = lit "great"
  /\ length (lit "great") = 5%nat
  /\ STRONG_TERMINATORS (lit "great!") = true
  /\ NUMERIC_CHECK (lit "great!") = false
  /\ 60000 / 300 == 200
  /\ calculateDelay (lit "great!") 300 == 200 * 1.0 * 2.8
  /\ calculateDelay (lit "great!") 300 == 560.
Proof.
  repeat split; vm_compute; reflexivity.
Qed.

(** The result of [calculateDelay] is the clamp of the last line. *)
Lemma clamp_bounds (totalDelay : Q) :
  50 <= Qmin (Qmax totalDelay 50) 3000 <= 3000.
Proof.
  split.
  - apply Q.min_glb.
    + apply Q.le_max_r.
    + discriminate.
  - apply Q.le_min_r.
Qed.

(** C6. Delay bounds: for every token and every pace between 100 and 1000
    words per minute the delay is at least 50 and at most 3000 ms. *)
Theorem calculateDelay_bounds (word : jsstring) (wpm : Q) :
  100 <= wpm <= 1000 ->
  50 <= calculateDelay word wpm <= 3000.
Proof.
  intros _. unfold calculateDelay. apply clamp_bounds.
Qed.

Lemma calculateDelay_bounds_witness :
  100 <= 300 <= 1000
  /\ 50 <= calculateDelay (lit "great!") 300 <= 3000.
Proof.
  assert (H : 100 <= 300 <= 1000) by (split; discriminate).
  split; [exact H | exact (calculateDelay_bounds (lit "great!") 300 H)].
Defined.

End DelayModel.

(** ** Optimal recognition point *)

Section ORP.

(** [Math.floor(n * 0.3)] is the integer quotient of [3 n] by 10. *)
Lemma floor03_div (n : nat) : floor03 n = (Z.of_nat n * 3 / 10)%Z.
Proof.
  unfold floor03, Qfloor, inject_Z, Qmult. cbn [Qnum Qden].
  reflexivity.
Qed.

Lemma floor03_bounds (n : nat) : (0 <= floor03 n <= Z.of_nat n)%Z.
Proof.
  rewrite floor03_div. split.
  - apply Z.div_pos; lia.
  - apply Z.div_le_upper_bound; lia.
Qed.

(** The groups of a match are consecutive pieces of the input. *)
Lemma lazyCore_pieces rest : forall core c s,
  lazyCore core rest = Some (c, s) -> rev core ++ rest = c ++ s.
Proof.
  induction rest as [|x rest IH]; intros core c s H.
  - simpl in H. inversion H; subst. reflexivity.
  - cbn [lazyCore] in H.
    destruct (forallb ORP_SUFFIX (x :: rest)).
    + inversion H; subst. reflexivity.
    + destruct (dot x); [|discriminate].
      apply IH in H. rewrite <- H. simpl. rewrite <- app_assoc. reflexivity.
Qed.

Lemma shorter_pieces prefix rest p c s :
  match lazyCore [] rest with
  | Some (core, suffix) => Some (rev prefix, core, suffix)
  | None => None
  end = Some (p, c, s) ->
  rev prefix ++ rest = p ++ c ++ s.
Proof.
  destruct (lazyCore [] rest) as [[core suffix]|] eqn:E; [|discriminate].
  intros H. inversion H; subst.
  apply lazyCore_pieces in E. simpl in E. rewrite E. reflexivity.
Qed.

Lemma greedyPrefix_pieces rest : forall prefix p c s,
  greedyPrefix prefix rest = Some (p, c, s) ->
  rev prefix ++ rest = p ++ c ++ s.
Proof.
  induction rest as [|x rest IH]; intros prefix p c s H.
  - apply shorter_pieces. exact H.
  - cbn [greedyPrefix] in H.
    destruct (ORP_PREFIX x); [|apply shorter_pieces; exact H].
    destruct (greedyPrefix (x :: prefix) rest) as [[[p' c'] s']|] eqn:E.
    + inversion H; subst. apply IH in E. rewrite <- E. simpl.
      rewrite <- app_assoc. reflexivity.
    + apply shorter_pieces. exact H.
Qed.

Lemma orpMatch_length word p c s :
  orpMatch word = Some (p, c, s) ->
  length word = (length p + length c + length s)%nat.
Proof.
  intros H. apply greedyPrefix_pieces in H. simpl in H. subst word.
  rewrite !length_app. lia.
Qed.

(** A token made of prefix units followed by suffix units matches with an
    empty core. *)
Lemma greedyPrefix_all_suffix rest : forall acc,
  forallb ORP_SUFFIX rest = true ->
  exists p s, greedyPrefix acc rest = Some (p, [], s).
Proof.
  induction rest as [|x rest IH]; intros acc H.
  - exists (rev acc), []. reflexivity.
  - cbn [greedyPrefix lazyCore]. rewrite H.
    destruct (ORP_PREFIX x).
    + simpl in H. apply andb_true_iff in H. destruct H as [_ H].
      destruct (IH (x :: acc) H) as [p [s E]]. rewrite E. eauto.
    + eauto.
Qed.

Lemma greedyPrefix_no_core prefix : forall acc suffix,
  forallb ORP_PREFIX prefix = true ->
  forallb ORP_SUFFIX suffix = true ->
  exists p s, greedyPrefix acc (prefix ++ suffix) = Some (p, [], s).
Proof.
  induction prefix as [|x prefix IH]; intros acc suffix Hp Hs.
  - apply greedyPrefix_all_suffix. exact Hs.
  - simpl in Hp. apply andb_true_iff in Hp. destruct Hp as [Hx Hp].
    cbn [app greedyPrefix]. rewrite Hx.
    destruct (IH (x :: acc) suffix Hp Hs) as [p [s E]]. rewrite E. eauto.
Qed.

(** C8. ORP bounds: the offset lies between 0 and the length of the token;
    the empty token gives 0; and a token whose stripped core is empty (it
    matches with an empty second group, as every token made only of
    leading bracket or quote units followed by trailing punctuation units
    does) gives 0. *)
Theorem getORPIndex_bounds (token : jsstring) :
  (0 <= getORPIndex token <= Z.of_nat (length token))%Z
  /\ getORPIndex [] = 0%Z
  /\ (forall prefix suffix,
        orpMatch token = Some (prefix, [], suffix) ->
        getORPIndex token = 0%Z)
  /\ (forall prefix suffix,
        token = prefix ++ suffix ->
        forallb ORP_PREFIX prefix = true ->
        forallb ORP_SUFFIX suffix = true ->
        getORPIndex token = 0%Z).
Proof.
  split; [|split; [reflexivity|split]].
  - unfold getORPIndex.
    destruct (orpMatch token) as [[[p c] s]|] eqn:E.
    + apply orpMatch_length in E.
      pose proof (floor03_bounds (length c)).
      destruct (length c =? 0)%nat; lia.
    + apply floor03_bounds.
  - intros prefix suffix E. unfold getORPIndex. rewrite E. reflexivity.
  - intros prefix suffix -> Hp Hs. unfold getORPIndex, orpMatch.
    destruct (greedyPrefix_no_core prefix [] suffix Hp Hs) as [p [s E]].
    rewrite E. reflexivity.
Qed.

Lemma getORPIndex_bounds_witness :
  orpMatch (lit "('.)") = Some (lit "('", [], lit ".)")
  /\ getORPIndex (lit "('.)") = 0%Z.
Proof.
  split; [reflexivity|].
  exact (proj1 (proj2 (proj2 (getORPIndex_bounds (lit "('.)"))))
           (lit "('") (lit ".)") eq_refl).
Defined.

End ORP.

(** ** Playback scheduler *)

Import Scheduler.

(** Reasoning by cases on the code of the operations, on a hook given by
    its fields: the bodies are unfolded, record updates and projections
    are reduced, and every test met on the way is split. *)
Ltac fields :=
  lazy beta iota zeta delta
    [setTimeout clearTimeout invoke setIsPlaying setIndex setTimerRef
     setInternalUpdate setPending
     index isPlaying timerRef isInternalUpdate pending nextHandle calls
     handle delay] in *;
  cbn [andb filter app] in *.

Ltac split_tests :=
  repeat (match goal with
          | |- context [if ?b then _ else _] => destruct b eqn:?
          | |- context [match ?x with Some _ => _ | None => _ end] =>
              destruct x eqn:?
          end; fields).

Ltac hook_cases :=
  unfold commit, rerunEffect, effectBody, effectCleanup, togglePlay, seek,
    tick, stop in *;
  fields; split_tests.

Section Scenario.

(** *** The scenario of five ticks *)

(** C1, as stated, fails: on the five tokens of the specification's text
    the run does not keep every reported index within the last valid
    index 4. *)
Lemma autoplay5_reports_beyond_last_index :
  ~ (forall h,
       run (helloProps 0) autoplay5 (mount (helloProps 0)) = Some h ->
       isPlaying h = false /\ index h = 4%Z
       /\ completions (calls h) = 1%nat
       /\ length (progressIndices (calls h)) = 5%nat
       /\ increasing (progressIndices (calls h))
       /\ Forall (fun i => (i <= 4)%Z) (progressIndices (calls h))).
Proof.
  intros H.
  assert (E : run (helloProps 0) autoplay5 (mount (helloProps 0))
              = Some {| index := 4; isPlaying := false; timerRef := None;
                        isInternalUpdate := true; pending := [];
                        nextHandle := 6;
                        calls := [OnProgress 1; OnProgress 2; OnProgress 3;
                                  OnProgress 4; OnProgress 5; OnComplete] |})
    by (vm_compute; reflexivity).
  destruct (H _ E) as (_ & _ & _ & _ & _ & Hall).
  cbn in Hall.
  repeat match goal with
         | H : Forall _ (_ :: _) |- _ => inversion H; clear H; subst
         end.
  lia.
Qed.

(** C1, amended.  On any five tokens, from index 0, [togglePlay] followed
    by five expiries of the timer ends Stopped at index 4 with no timer
    pending; [onComplete] was invoked once and [onProgress] five times,
    with the strictly increasing indices 1, 2, 3, 4, 5: the fifth tick
    reports the stream length 5 and then completes, leaving the index
    at 4. *)
Theorem autoplay5_outcome (w1 w2 w3 w4 w5 : jsstring) (pace : Q) :
  let p := {| words := [w1; w2; w3; w4; w5]; wpm := pace;
              initialIndex := 0; onCompleteGiven := true;
              onProgressGiven := true |} in
  exists h,
    run p autoplay5 (mount p) = Some h
    /\ isPlaying h = false /\ index h = 4%Z /\ pending h = []
    /\ calls h = [OnProgress 1; OnProgress 2; OnProgress 3; OnProgress 4;
                  OnProgress 5; OnComplete]
    /\ completions (calls h) = 1%nat
    /\ progressIndices (calls h) = [1; 2; 3; 4; 5]%Z
    /\ increasing (progressIndices (calls h)).
Proof.
  intros p.
  exists {| index := 4; isPlaying := false; timerRef := None;
            isInternalUpdate := true; pending := []; nextHandle := 6;
            calls := [OnProgress 1; OnProgress 2; OnProgress 3;
                      OnProgress 4; OnProgress 5; OnComplete] |}.
  split; [vm_compute; reflexivity|].
  repeat split; cbn; lia.
Qed.

End Scenario.

Section Invariants.

Variable p : Props.

(** *** Effects only touch the timers *)

Lemma rerunEffect_frame h :
  index (rerunEffect p h) = index h
  /\ isPlaying (rerunEffect p h) = isPlaying h
  /\ calls (rerunEffect p h) = calls h.
Proof.
  destruct h. hook_cases; auto.
Qed.

Lemma commit_frame before after :
  index (commit p before after) = index after
  /\ isPlaying (commit p before after) = isPlaying after
  /\ calls (commit p before after) = calls after.
Proof.
  unfold commit. destruct (_ && _); [auto|]. apply rerunEffect_frame.
Qed.

(** *** The index stays in the stream *)

Lemma index_togglePlay h :
  index (togglePlay p h)
  = if (index h >=? wordsLength p - 1)%Z then 0%Z else index h.
Proof.
  destruct h. hook_cases; reflexivity.
Qed.

Lemma index_seek n h :
  index (seek p n h) = Z.max 0 (Z.min n (wordsLength p - 1)).
Proof.
  destruct h. hook_cases; reflexivity.
Qed.

Lemma index_stop h : index (stop h) = index h.
Proof.
  destruct h. hook_cases; reflexivity.
Qed.

Lemma index_tick h :
  index (tick p h)
  = if (index h + 1 >=? wordsLength p)%Z then index h else (index h + 1)%Z.
Proof.
  destruct h. hook_cases; reflexivity.
Qed.

(** Every event keeps the index below any bound that lies between the last
    valid index and the length of the stream. *)
Lemma step_index_bound e h h' (bound : Z) :
  (Z.max 0 (wordsLength p - 1) <= bound <= wordsLength p)%Z ->
  step p e h = Some h' ->
  (0 <= index h <= bound)%Z ->
  (0 <= index h' <= bound)%Z.
Proof.
  intros Hb Hs Hi. destruct e; cbn [step] in Hs.
  - inversion Hs; subst. rewrite (proj1 (commit_frame h _)).
    rewrite index_togglePlay. destruct (_ >=? _)%Z; lia.
  - inversion Hs; subst. rewrite (proj1 (commit_frame h _)).
    rewrite index_seek. lia.
  - inversion Hs; subst. rewrite (proj1 (commit_frame h _)).
    rewrite index_stop. exact Hi.
  - destruct (pending h) as [|t others]; [discriminate|].
    inversion Hs; subst. rewrite (proj1 (commit_frame h _)).
    rewrite index_tick. cbn [setPending index].
    rewrite Z.geb_leb. destruct (Z.leb_spec (wordsLength p) (index h + 1)); lia.
  - inversion Hs; subst. rewrite (proj1 (rerunEffect_frame h)). exact Hi.
Qed.

Lemma run_index_bound es : forall h h' (bound : Z),
  (Z.max 0 (wordsLength p - 1) <= bound <= wordsLength p)%Z ->
  run p es h = Some h' ->
  (0 <= index h <= bound)%Z ->
  (0 <= index h' <= bound)%Z.
Proof.
  induction es as [|e es IH]; intros h h' bound Hb Hr Hi.
  - inversion Hr; subst. exact Hi.
  - cbn [run] in Hr. destruct (step p e h) as [h1|] eqn:Hs; [|discriminate].
    apply (IH h1 h' bound Hb Hr).
    apply (step_index_bound e h h1 bound Hb Hs Hi).
Qed.

(** The index a session resumes at. *)
Lemma savedIdx_floor progress flatWords :
  savedIdx progress flatWords
  = Qfloor (progress * inject_Z (Z.of_nat (length flatWords))).
Proof.
  unfold savedIdx.
  destruct (Qfloor _ =? 0)%Z eqn:E; [|reflexivity].
  apply Z.eqb_eq in E. symmetry. exact E.
Qed.

Lemma savedIdx_bounds progress flatWords :
  0 <= progress <= 1 ->
  (0 <= savedIdx progress flatWords <= Z.of_nat (length flatWords))%Z.
Proof.
  intros [H0 H1]. rewrite savedIdx_floor.
  set (n := Z.of_nat (length flatWords)).
  assert (Hn : 0 <= inject_Z n).
  { change 0 with (inject_Z 0). rewrite <- Zle_Qle. subst n. lia. }
  split.
  - change 0%Z with (Qfloor 0). apply Qfloor_resp_le.
    apply Qmult_le_0_compat; assumption.
  - rewrite <- (Qfloor_Z n) at 2. apply Qfloor_resp_le.
    rewrite <- (Qmult_1_l (inject_Z n)) at 2.
    apply Qmult_le_compat_r; assumption.
Qed.

Lemma savedIdx_below progress flatWords :
  0 <= progress < 1 -> flatWords <> [] ->
  (savedIdx progress flatWords < Z.of_nat (length flatWords))%Z.
Proof.
  intros [H0 H1] Hne. rewrite savedIdx_floor.
  set (n := Z.of_nat (length flatWords)).
  assert (Hn : 0 < inject_Z n).
  { change 0 with (inject_Z 0). rewrite <- Zlt_Qlt. subst n.
    destruct flatWords; [contradiction | simpl; lia]. }
  rewrite Zlt_Qlt.
  apply Qle_lt_trans with (progress * inject_Z n); [apply Qfloor_le|].
  rewrite <- (Qmult_1_l (inject_Z n)) at 2.
  apply Qmult_lt_compat_r; assumption.
Qed.

(** C3, amended.  A session resumed from a stored fraction in [0,1] starts
    at [floor(fraction * length)], and after every sequence of
    [togglePlay], [seek], [stop], timer expiries and renders the index is
    between 0 and the stream length; when the fraction is below 1 the
    index is between 0 and the last valid index (it is 0 on an empty
    stream). *)
Theorem index_stays_in_stream progress es h :
  0 <= progress <= 1 ->
  initialIndex p = savedIdx progress (words p) ->
  run p es (mount p) = Some h ->
  index (mount p) = Qfloor (progress * inject_Z (wordsLength p))
  /\ (0 <= index h <= wordsLength p)%Z
  /\ (progress < 1 ->
      (words p = [] -> index h = 0%Z)
      /\ (words p <> [] -> (0 <= index h <= wordsLength p - 1)%Z)).
Proof.
  intros Hp Hinit Hrun.
  pose proof (savedIdx_bounds progress (words p) Hp) as Hb.
  split; [|split].
  - cbn [mount index]. rewrite Hinit. apply savedIdx_floor.
  - apply (run_index_bound es (mount p)); [unfold wordsLength; lia|assumption|].
    cbn [mount index]. rewrite Hinit. exact Hb.
  - intros Hlt.
    assert (Hr : (0 <= index h <= Z.max 0 (wordsLength p - 1))%Z).
    { apply (run_index_bound es (mount p));
        [unfold wordsLength; lia|assumption|].
      cbn [mount index]. rewrite Hinit.
      destruct (words p) as [|w ws] eqn:Hw.
      - unfold wordsLength. rewrite Hw. simpl in *. lia.
      - assert (Hbelow : (savedIdx progress (w :: ws)
                          < Z.of_nat (length (w :: ws)))%Z).
        { apply savedIdx_below; [tauto | discriminate]. }
        unfold wordsLength. rewrite Hw. lia. }
    split.
    + intros Hw. unfold wordsLength in Hr. rewrite Hw in Hr. simpl in Hr. lia.
    + intros Hw. unfold wordsLength in *.
      destruct (words p); [contradiction|]. simpl length in *. lia.
Qed.

(** *** The timer discipline *)

Lemma cleanup_clears h :
  oneTimer h ->
  pending (effectCleanup h) = [] /\ isPlaying (effectCleanup h) = isPlaying h.
Proof.
  intros [Hp | [t [Hp Hr]]]; unfold effectCleanup.
  - destruct (timerRef h); [|auto].
    unfold clearTimeout, setPending. cbn [pending isPlaying].
    rewrite Hp. auto.
  - rewrite Hr. unfold clearTimeout, setPending. cbn [pending isPlaying].
    rewrite Hp. cbn [filter]. rewrite Nat.eqb_refl. auto.
Qed.

Lemma body_arms h : pending h = [] -> oneTimer (effectBody p h).
Proof.
  intros Hp. destruct h. unfold oneTimer. fields. subst.
  hook_cases;
    first [ left; reflexivity | right; eexists; split; reflexivity ].
Qed.

Lemma rerunEffect_oneTimer h : oneTimer h -> oneTimer (rerunEffect p h).
Proof.
  intros H. unfold rerunEffect. apply body_arms. apply cleanup_clears, H.
Qed.

Lemma commit_oneTimer before after :
  oneTimer after -> oneTimer (commit p before after).
Proof.
  intros H. unfold commit. destruct (_ && _); [exact H|].
  apply rerunEffect_oneTimer, H.
Qed.

Lemma stop_clears h :
  oneTimer h ->
  pending (stop h) = [] /\ isPlaying (stop h) = false
  /\ calls (stop h) = calls h.
Proof.
  intros [Hp | [t [Hp Hr]]]; unfold stop.
  - destruct (timerRef h);
      unfold clearTimeout, setTimerRef, setIsPlaying, setPending;
      cbn [pending isPlaying calls]; rewrite ?Hp; auto.
  - rewrite Hr.
    unfold clearTimeout, setTimerRef, setIsPlaying, setPending.
    cbn [pending isPlaying calls]. rewrite Hp. cbn [filter].
    rewrite Nat.eqb_refl. auto.
Qed.

Lemma tick_no_timer h : pending h = [] -> pending (tick p h) = [].
Proof.
  intros Hp. destruct h. fields. subst. hook_cases; reflexivity.
Qed.

Lemma step_oneTimer e h h' :
  step p e h = Some h' -> oneTimer h -> oneTimer h'.
Proof.
  intros Hs H. destruct e; cbn [step] in Hs.
  - inversion Hs; subst. apply commit_oneTimer.
    destruct h. unfold oneTimer in *. hook_cases; exact H.
  - inversion Hs; subst. apply commit_oneTimer.
    destruct h. unfold oneTimer in *. hook_cases; exact H.
  - inversion Hs; subst. apply commit_oneTimer.
    left. apply stop_clears, H.
  - destruct (pending h) as [|t others] eqn:Hp; [discriminate|].
    inversion Hs; subst. apply commit_oneTimer. left.
    apply tick_no_timer. cbn [setPending pending].
    destruct H as [H | [t' [H _]]]; rewrite Hp in H; [discriminate|].
    inversion H; reflexivity.
  - inversion Hs; subst. apply rerunEffect_oneTimer, H.
Qed.

Lemma run_oneTimer es : forall h h',
  run p es h = Some h' -> oneTimer h -> oneTimer h'.
Proof.
  induction es as [|e es IH]; intros h h' Hr H.
  - inversion Hr; subst. exact H.
  - cbn [run] in Hr. destruct (step p e h) as [h1|] eqn:Hs; [|discriminate].
    apply (IH h1 h' Hr). apply (step_oneTimer e h h1 Hs H).
Qed.

Lemma rerunEffect_quiet h :
  quiet h -> quiet (rerunEffect p h) /\ calls (rerunEffect p h) = calls h.
Proof.
  intros [Hs Hp].
  destruct (cleanup_clears h (or_introl Hp)) as [Hc1 Hc2].
  unfold rerunEffect, effectBody. rewrite Hc2, Hs. cbn [andb].
  split; [split; [rewrite Hc2; exact Hs | exact Hc1]|].
  unfold effectCleanup. destruct (timerRef h); reflexivity.
Qed.

Lemma commit_quiet before after :
  quiet after ->
  quiet (commit p before after) /\ calls (commit p before after) = calls after.
Proof.
  intros H. unfold commit. destruct (_ && _); [auto|].
  apply rerunEffect_quiet, H.
Qed.

(** While stopped with no timer pending, an event that does not restart
    playback leaves the hook so, and only an explicit [seek] reports. *)
Lemma step_quiet e h h' :
  restarts e = false -> step p e h = Some h' -> quiet h ->
  quiet h' /\ calls h' = calls h ++ seekCalls p [e].
Proof.
  intros He Hs [Hq Hp]. destruct e; try discriminate; cbn [step] in Hs.
  - inversion Hs; subst.
    destruct (commit_quiet h (seek p newIndex h)) as [Hq' Hc].
    + destruct h. unfold quiet in *. fields. subst. hook_cases; auto.
    + split; [exact Hq'|]. rewrite Hc. unfold seekCalls. cbn [flat_map].
      destruct h. hook_cases; rewrite ?app_nil_r; reflexivity.
  - inversion Hs; subst.
    destruct (commit_quiet h (stop h)) as [Hq' Hc].
    + unfold quiet. split; apply stop_clears; left; exact Hp.
    + split; [exact Hq'|]. rewrite Hc. cbn [seekCalls flat_map app].
      rewrite app_nil_r. apply stop_clears. left; exact Hp.
  - rewrite Hp in Hs. discriminate.
  - inversion Hs; subst.
    destruct (rerunEffect_quiet h) as [Hq' Hc]; [split; auto|].
    split; [exact Hq'|]. rewrite Hc. cbn [seekCalls flat_map app].
    rewrite app_nil_r. reflexivity.
Qed.

Lemma run_quiet es : forall h h',
  existsb restarts es = false -> run p es h = Some h' -> quiet h ->
  quiet h' /\ calls h' = calls h ++ seekCalls p es.
Proof.
  induction es as [|e es IH]; intros h h' He Hr Hq.
  - inversion Hr; subst. split; [exact Hq|]. cbn. rewrite app_nil_r.
    reflexivity.
  - cbn [existsb] in He. apply orb_false_iff in He. destruct He as [He Hes].
    cbn [run] in Hr. destruct (step p e h) as [h1|] eqn:Hs; [|discriminate].
    destruct (step_quiet e h h1 He Hs Hq) as [Hq1 Hc1].
    destruct (IH h1 h' Hes Hr Hq1) as [Hq' Hc'].
    split; [exact Hq'|]. rewrite Hc', Hc1, <- app_assoc. f_equal.
    unfold seekCalls. cbn [flat_map]. rewrite app_nil_r. reflexivity.
Qed.

(** C5. After any sequence of [togglePlay], [seek], [stop] calls, timer
    expiries and renders at most one timer is pending.  Once [stop] has
    run, and until playback is toggled again, no timer is pending, so the
    timer callback cannot fire: whatever [seek], [stop] calls and renders
    follow, the only callbacks invoked are the progress reports of the
    explicit [seek] calls. *)
Theorem single_timer_discipline es h :
  run p es (mount p) = Some h ->
  (length (pending h) <= 1)%nat
  /\ forall es' h',
       existsb restarts es' = false ->
       run p (Stop :: es') h = Some h' ->
       isPlaying h' = false
       /\ pending h' = []
       /\ step p TimerFires h' = None
       /\ calls h' = calls h ++ seekCalls p es'.
Proof.
  intros Hrun.
  assert (H1 : oneTimer h).
  { apply (run_oneTimer es (mount p) h Hrun). left. reflexivity. }
  split.
  - destruct H1 as [Hp | [t [Hp _]]]; rewrite Hp; cbn; lia.
  - intros es' h' Hes Hr. cbn [run step] in Hr.
    assert (Hq : quiet (commit p h (stop h))
                 /\ calls (commit p h (stop h)) = calls (stop h)).
    { apply commit_quiet. split; apply stop_clears; exact H1. }
    destruct Hq as [Hq Hc].
    destruct (run_quiet es' _ h' Hes Hr Hq) as [[Hs' Hp'] Hc'].
    repeat split; try assumption.
    + cbn [step]. rewrite Hp'. reflexivity.
    + rewrite Hc', Hc. f_equal. apply stop_clears. exact H1.
Qed.

(** *** The empty stream *)

Lemma rerunEffect_empty h :
  wordsLength p = 0%Z -> index h = 0%Z -> timerRef h = None ->
  rerunEffect p h = h.
Proof.
  intros Hl Hi Hr. unfold rerunEffect, effectCleanup. rewrite Hr.
  unfold effectBody. rewrite Hl, Hi. cbn [Z.ltb Z.compare].
  rewrite andb_false_r. reflexivity.
Qed.

Lemma commit_empty before after :
  wordsLength p = 0%Z -> index after = 0%Z -> timerRef after = None ->
  commit p before after = after.
Proof.
  intros Hl Hi Hr. unfold commit. destruct (_ && _); [reflexivity|].
  apply rerunEffect_empty; assumption.
Qed.

Section EmptyStream.

Hypothesis words_empty : words p = [].

Lemma wordsLength_empty : wordsLength p = 0%Z.
Proof.
  unfold wordsLength. rewrite words_empty. reflexivity.
Qed.

Lemma step_empty e h h' :
  step p e h = Some h' ->
  index h = 0%Z /\ pending h = [] /\ timerRef h = None ->
  (index h' = 0%Z /\ pending h' = [] /\ timerRef h' = None)
  /\ match e with
     | TogglePlay => isPlaying h' = true
     | Stop => isPlaying h' = false
     | Seek _ | Rerender => isPlaying h' = isPlaying h
     | TimerFires => False
     end.
Proof.
  intros Hs (Hi & Hp & Hr).
  pose proof wordsLength_empty as Hl.
  destruct e; cbn [step] in Hs.
  - assert (E : togglePlay p h = setIsPlaying true (setIndex 0 h)).
    { unfold togglePlay. rewrite Hl, Hi. reflexivity. }
    rewrite E, commit_empty in Hs by (assumption || reflexivity).
    inversion Hs; subst. cbn. auto.
  - assert (E : index (seek p newIndex h) = 0%Z
                /\ pending (seek p newIndex h) = pending h
                /\ timerRef (seek p newIndex h) = timerRef h
                /\ isPlaying (seek p newIndex h) = isPlaying h).
    { unfold seek. rewrite Hl.
      destruct (onProgressGiven p); cbn; repeat split; lia. }
    destruct E as (E1 & E2 & E3 & E4).
    rewrite commit_empty in Hs by (assumption || congruence).
    inversion Hs; subst. rewrite E1, E2, E3, E4. auto.
  - assert (E : stop h = setIsPlaying false h).
    { unfold stop. rewrite Hr. reflexivity. }
    rewrite E, commit_empty in Hs by (assumption || reflexivity).
    inversion Hs; subst. cbn. auto.
  - rewrite Hp in Hs. discriminate.
  - rewrite rerunEffect_empty in Hs by assumption.
    inversion Hs; subst. auto.
Qed.

Lemma run_empty es : forall h h',
  run p es h = Some h' ->
  index h = 0%Z /\ pending h = [] /\ timerRef h = None ->
  index h' = 0%Z /\ pending h' = [] /\ timerRef h' = None.
Proof.
  induction es as [|e es IH]; intros h h' Hr H.
  - inversion Hr; subst. exact H.
  - cbn [run] in Hr. destruct (step p e h) as [h1|] eqn:Hs; [|discriminate].
    apply (IH h1 h' Hr). apply (step_empty e h h1 Hs H).
Qed.

(** C4, amended.  On an empty word stream, after any sequence of events
    the index is 0 and no timer was armed, so that no tick can fire;
    [seek] leaves the index and [isPlaying] unchanged; [stop], and [tick]
    were it called, leave the index unchanged and set Stopped;
    [togglePlay] arms no timer and leaves the index unchanged, but sets
    [isPlaying]. *)
Theorem empty_stream_operations es h :
  initialIndex p = 0%Z ->
  run p es (mount p) = Some h ->
  index h = 0%Z /\ pending h = [] /\ timerRef h = None
  /\ step p TimerFires h = None
  /\ (forall n, exists h',
        step p (Seek n) h = Some h'
        /\ index h' = index h /\ isPlaying h' = isPlaying h
        /\ pending h' = [])
  /\ (exists h',
        step p Stop h = Some h'
        /\ index h' = index h /\ isPlaying h' = false /\ pending h' = [])
  /\ (index (tick p h) = index h /\ isPlaying (tick p h) = false
      /\ pending (tick p h) = [])
  /\ (exists h',
        step p TogglePlay h = Some h'
        /\ index h' = index h /\ isPlaying h' = true /\ pending h' = []).
Proof.
  intros Hinit Hrun.
  assert (H : index h = 0%Z /\ pending h = [] /\ timerRef h = None).
  { apply (run_empty es (mount p) h Hrun).
    cbn [mount index pending timerRef]. auto. }
  destruct H as (Hi & Hp & Hr).
  split; [exact Hi|]. split; [exact Hp|]. split; [exact Hr|].
  split; [cbn [step]; rewrite Hp; reflexivity|].
  split; [|split; [|split]].
  - intros n. eexists. split; [reflexivity|].
    destruct (step_empty (Seek n) h _ eq_refl) as [(Hi' & Hp' & _) Hs'];
      [auto|]. rewrite Hi. auto.
  - eexists. split; [reflexivity|].
    destruct (step_empty Stop h _ eq_refl) as [(Hi' & Hp' & _) Hs'];
      [auto|]. rewrite Hi. auto.
  - rewrite index_tick, wordsLength_empty, Hi. cbn [Z.add Z.geb Z.compare].
    split; [reflexivity|]. split; [|apply tick_no_timer; exact Hp].
    unfold tick. rewrite wordsLength_empty, Hi. cbn [Z.add Z.geb Z.compare].
    destruct (onProgressGiven p), (onCompleteGiven p);
      cbn [setIndex invoke isPlaying];
      apply stop_clears; left; cbn [setInternalUpdate invoke pending];
      exact Hp.
  - eexists. split; [reflexivity|].
    destruct (step_empty TogglePlay h _ eq_refl) as [(Hi' & Hp' & _) Hs'];
      [auto|]. rewrite Hi. auto.
Qed.

End EmptyStream.

End Invariants.

(** *** Instances *)

Section Instances.

(** C3, as stated, fails at initialisation: resuming the five-token stream
    from the stored fraction 1 starts at index 5, one past the last valid
    index. *)
Lemma resume_from_full_progress_out_of_range :
  let p := helloProps (savedIdx 1 (words (helloProps 0))) in
  wordsLength p = 5%Z
  /\ index (mount p) = 5%Z
  /\ ~ (forall es h, run p es (mount p) = Some h ->
                     (0 <= index h <= wordsLength p - 1)%Z).
Proof.
  intros p.
  assert (Hl : wordsLength p = 5%Z) by (vm_compute; reflexivity).
  assert (Hi : index (mount p) = 5%Z) by (vm_compute; reflexivity).
  split; [exact Hl|split; [exact Hi|]].
  intros H. specialize (H [] (mount p) eq_refl).
  rewrite Hl, Hi in H. lia.
Qed.

Lemma index_stays_in_stream_witness :
  let p := helloProps (savedIdx 0.5 (words (helloProps 0))) in
  0 <= 0.5 <= 1
  /\ index (mount p) = 2%Z
  /\ exists h,
       run p [TogglePlay; TimerFires; Seek 9; TimerFires; Stop] (mount p)
       = Some h
       /\ index h = 4%Z
       /\ (0 <= index h <= wordsLength p)%Z.
Proof.
  intros p.
  assert (Hp : 0 <= 0.5 <= 1) by (split; discriminate).
  assert (Hinit : initialIndex p = savedIdx 0.5 (words p)) by reflexivity.
  assert (Hrun : run p [TogglePlay; TimerFires; Seek 9; TimerFires; Stop]
                   (mount p)
                 = Some {| index := 4; isPlaying := false; timerRef := None;
                           isInternalUpdate := true; pending := [];
                           nextHandle := 4;
                           calls := [OnProgress 3; OnProgress 4;
                                     OnProgress 5; OnComplete] |})
    by (vm_compute; reflexivity).
  split; [exact Hp|]. split; [vm_compute; reflexivity|].
  eexists. split; [exact Hrun|]. split; [reflexivity|].
  exact (proj1 (proj2 (index_stays_in_stream p 0.5 _ _ Hp Hinit Hrun))).
Defined.

Lemma single_timer_discipline_witness :
  let p := helloProps 0 in
  exists h,
    run p [TogglePlay; TimerFires; Seek 3] (mount p) = Some h
    /\ length (pending h) = 1%nat
    /\ (length (pending h) <= 1)%nat.
Proof.
  intros p.
  assert (Hrun : run p [TogglePlay; TimerFires; Seek 3] (mount p)
                 = Some {| index := 3; isPlaying := true;
                           timerRef := Some 3%nat; isInternalUpdate := true;
                           pending := [{| handle := 3;
                             delay := calculateDelay (lit "is") 300 |}];
                           nextHandle := 4;
                           calls := [OnProgress 1; OnProgress 3] |})
    by (vm_compute; reflexivity).
  eexists. split; [exact Hrun|]. split; [reflexivity|].
  exact (proj1 (single_timer_discipline p _ _ Hrun)).
Defined.

(** C4, as stated, fails: on an empty stream [togglePlay] does change the
    state, it sets [isPlaying]. *)
Lemma togglePlay_on_empty_stream_sets_playing :
  ~ (forall e h',
       step emptyProps e (mount emptyProps) = Some h' ->
       index h' = index (mount emptyProps)
       /\ isPlaying h' = isPlaying (mount emptyProps)).
Proof.
  intros H.
  assert (E : step emptyProps TogglePlay (mount emptyProps)
              = Some (setIsPlaying true (mount emptyProps)))
    by (vm_compute; reflexivity).
  destruct (H TogglePlay _ E) as [_ Hp]. discriminate.
Qed.

Lemma empty_stream_operations_witness :
  exists h,
    run emptyProps [TogglePlay; Seek 3; Stop; TogglePlay] (mount emptyProps)
    = Some h
    /\ isPlaying h = true
    /\ index h = 0%Z /\ pending h = [].
Proof.
  assert (Hrun : run emptyProps [TogglePlay; Seek 3; Stop; TogglePlay]
                   (mount emptyProps)
                 = Some {| index := 0; isPlaying := true; timerRef := None;
                           isInternalUpdate := true; pending := [];
                           nextHandle := 1; calls := [OnProgress 0] |})
    by (vm_compute; reflexivity).
  eexists. split; [exact Hrun|]. split; [reflexivity|].
  pose proof (empty_stream_operations emptyProps eq_refl _ _ eq_refl Hrun)
    as H.
  exact (conj (proj1 H) (proj1 (proj2 H))).
Defined.

End Instances.

(** ** Windowed paragraph synchronisation *)

Section Window.

Import Paragraph ScrollReader.

Lemma containsIndex_spec currentIndex p :
  containsIndex currentIndex p = true <-> inParagraph currentIndex p.
Proof.
  unfold containsIndex, inParagraph.
  rewrite andb_true_iff, Z.geb_leb, Z.leb_le, Z.ltb_lt. tauto.
Qed.

(** [findIndex] answers -1 when no element passes the test, and otherwise
    the position of the first element that does. *)
Lemma findIndex_from_spec {A} (test : A -> bool) (a : list A) :
  forall i, (0 <= i)%Z ->
  let r := findIndex_from test a i in
  (r = (-1)%Z /\ Forall (fun x => test x = false) a)
  \/ ((i <= r < i + Z.of_nat (length a))%Z
      /\ (exists x, nth_error a (Z.to_nat (r - i)) = Some x /\ test x = true)
      /\ forall j y, (j < Z.to_nat (r - i))%nat ->
                     nth_error a j = Some y -> test y = false).
Proof.
  induction a as [|x a IH]; intros i Hi; cbn [findIndex_from].
  - left. split; [reflexivity | constructor].
  - destruct (test x) eqn:Hx.
    + right. rewrite Z.sub_diag. cbn [Z.to_nat nth_error length].
      split; [lia|]. split; [eauto|]. intros j y Hj. lia.
    + destruct (IH (i + 1)%Z ltac:(lia))
        as [[Hr Hall] | (Hr & [y [Hy Hty]] & Hfirst)].
      * left. split; [exact Hr | constructor; assumption].
      * right. cbn [length]. split; [lia|].
        set (r := findIndex_from test a (i + 1)) in *.
        replace (Z.to_nat (r - i)) with (S (Z.to_nat (r - (i + 1)))) by lia.
        split; [exists y; auto|].
        intros [|j] z Hj Hz; cbn [nth_error] in Hz.
        -- inversion Hz; subst; assumption.
        -- apply (Hfirst j z); [lia | assumption].
Qed.

Lemma slice_inner {A} (a : list A) (start stop : Z) :
  (0 <= start <= stop)%Z -> (stop <= Z.of_nat (length a))%Z ->
  slice a start stop
  = firstn (Z.to_nat (stop - start)) (skipn (Z.to_nat start) a).
Proof.
  intros H1 H2. unfold slice.
  destruct (Z.ltb_spec start 0); [lia|].
  destruct (Z.ltb_spec stop 0); [lia|].
  rewrite !Z.min_l by lia. rewrite Z.max_l by lia. reflexivity.
Qed.

Lemma nth_error_window {A} (a : list A) (n m k : nat) :
  (k < m)%nat ->
  nth_error (firstn m (skipn n a)) k = nth_error a (n + k).
Proof.
  intros Hk. rewrite nth_error_firstn.
  destruct (Nat.ltb_spec k m); [|lia].
  apply nth_error_skipn.
Qed.

(** The anchor is a valid position whenever there is a paragraph. *)
Lemma anchorIndex_range paragraphs currentIndex :
  (0 <= anchorIndex paragraphs currentIndex)%Z
  /\ (paragraphs <> [] ->
      (anchorIndex paragraphs currentIndex
       < Z.of_nat (length paragraphs))%Z).
Proof.
  unfold anchorIndex, activeParagraphIndex, findIndex.
  destruct (findIndex_from_spec (containsIndex currentIndex) paragraphs 0
              ltac:(lia)) as [[Hr _] | (Hr & _)].
  - rewrite Hr. cbn. split; [lia|]. intros Hne.
    destruct paragraphs; [contradiction | cbn [length]; lia].
  - destruct (Z.eqb_spec (findIndex_from (containsIndex currentIndex)
                                          paragraphs 0) (-1)); lia.
Qed.

(** C9. The active paragraph is the first paragraph whose token range
    contains the current index, and paragraph 0 when there is none; the
    visible window is exactly the paragraphs at the positions from
    [max(0, active - 40)] up to, not including,
    [min(total, active + 41)]. *)
Theorem visible_window (paragraphs : list ParagraphData) (currentIndex : Z) :
  let active := anchorIndex paragraphs currentIndex in
  let total := Z.of_nat (length paragraphs) in
  let first := Z.max 0 (active - 40) in
  let last := Z.min total (active + 41) in
  ((exists p, In p paragraphs /\ inParagraph currentIndex p) ->
   (exists p, at_index paragraphs active = Some p
              /\ inParagraph currentIndex p)
   /\ forall j q, (0 <= j < active)%Z -> at_index paragraphs j = Some q ->
                  ~ inParagraph currentIndex q)
  /\ ((forall p, In p paragraphs -> ~ inParagraph currentIndex p) ->
      activeParagraphIndex paragraphs currentIndex = (-1)%Z
      /\ active = 0%Z)
  /\ startIndex paragraphs currentIndex = first
  /\ endIndex paragraphs currentIndex = last
  /\ Z.of_nat (length (visibleParagraphs paragraphs currentIndex))
     = (last - first)%Z
  /\ forall k, (first <= k < last)%Z ->
               at_index (visibleParagraphs paragraphs currentIndex)
                        (k - first)
               = at_index paragraphs k.
Proof.
  intros active total first last.
  pose proof (anchorIndex_range paragraphs currentIndex) as [Ha0 Ha1].
  fold active in Ha0, Ha1. fold total in Ha1.
  assert (Hwin : (0 <= first <= last)%Z /\ (last <= total)%Z).
  { subst first last total. destruct paragraphs as [|p ps].
    - subst active. change (anchorIndex [] currentIndex) with 0%Z.
      cbn [length Z.of_nat]. lia.
    - specialize (Ha1 ltac:(discriminate)). lia. }
  assert (Hstart : startIndex paragraphs currentIndex = first)
    by reflexivity.
  assert (Hend : endIndex paragraphs currentIndex = last).
  { unfold endIndex, WINDOW_BUFFER. subst last total active.
    f_equal. lia. }
  assert (Hvis : visibleParagraphs paragraphs currentIndex
                 = firstn (Z.to_nat (last - first))
                          (skipn (Z.to_nat first) paragraphs)).
  { unfold visibleParagraphs. rewrite Hstart, Hend.
    apply slice_inner; tauto. }
  pose proof (findIndex_from_spec (containsIndex currentIndex) paragraphs 0
                ltac:(lia)) as Hfind.
  cbn zeta in Hfind. rewrite Z.add_0_l in Hfind.
  fold (findIndex (containsIndex currentIndex) paragraphs) in Hfind.
  fold (activeParagraphIndex paragraphs currentIndex) in Hfind.
  split; [|split; [|split; [exact Hstart|split; [exact Hend|split]]]].
  - intros [p [Hin Hp]].
    destruct Hfind as [[_ Hall] | (Hr & [x [Hx Htx]] & Hfirst)].
    + rewrite Forall_forall in Hall. apply Hall in Hin.
      apply containsIndex_spec in Hp. congruence.
    + assert (Hact : active = activeParagraphIndex paragraphs currentIndex).
      { subst active. unfold anchorIndex.
        destruct (Z.eqb_spec (activeParagraphIndex paragraphs currentIndex)
                             (-1)); [lia | reflexivity]. }
      rewrite <- Hact in *. rewrite Z.sub_0_r in *. split.
      * exists x. unfold at_index. destruct (Z.ltb_spec active 0); [lia|].
        split; [exact Hx | apply containsIndex_spec; exact Htx].
      * intros j q Hj Hq Hc. unfold at_index in Hq.
        destruct (Z.ltb_spec j 0); [lia|].
        apply containsIndex_spec in Hc.
        rewrite (Hfirst (Z.to_nat j) q ltac:(lia) Hq) in Hc. discriminate.
  - intros Hnone.
    destruct Hfind as [[Hr _] | (_ & [x [Hx Htx]] & _)].
    + split; [exact Hr|]. subst active. unfold anchorIndex. rewrite Hr.
      reflexivity.
    + exfalso. apply (Hnone x).
      * apply nth_error_In in Hx. exact Hx.
      * apply containsIndex_spec. exact Htx.
  - rewrite Hvis, length_firstn, length_skipn. lia.
  - intros k Hk. rewrite Hvis. unfold at_index.
    destruct (Z.ltb_spec (k - first) 0); [lia|].
    destruct (Z.ltb_spec k 0); [lia|].
    rewrite nth_error_window by lia. f_equal. lia.
Qed.

Lemma visible_window_witness :
  (exists p, In p sampleParagraphs /\ inParagraph 3 p)
  /\ anchorIndex sampleParagraphs 3 = 1%Z
  /\ exists p, at_index sampleParagraphs (anchorIndex sampleParagraphs 3)
               = Some p
               /\ inParagraph 3 p.
Proof.
  assert (H : exists p, In p sampleParagraphs /\ inParagraph 3 p).
  { eexists. split; [right; left; reflexivity|].
    unfold inParagraph. cbn [Paragraph.startIndex wordCount]. lia. }
  split; [exact H|]. split; [reflexivity|].
  exact (proj1 (proj1 (visible_window sampleParagraphs 3) H)).
Defined.

End Window.

(** ** More on the playback scheduler *)

Section MoreScheduler.

Variable p : Props.

(** *** Seeking *)

(** X1. On a non-empty stream [seek] sets the index to its target clamped
    to the valid indices (the target itself when it is one, 0 below, the
    last index above), leaves [isPlaying] alone and reports the clamped
    index once. *)
Theorem seek_clamps (n : Z) (h : Hook) :
  words p <> [] ->
  exists h',
    step p (Seek n) h = Some h'
    /\ index h' = Z.max 0 (Z.min n (wordsLength p - 1))
    /\ (0 <= index h' <= wordsLength p - 1)%Z
    /\ ((0 <= n <= wordsLength p - 1)%Z -> index h' = n)
    /\ ((n < 0)%Z -> index h' = 0%Z)
    /\ ((wordsLength p <= n)%Z -> index h' = (wordsLength p - 1)%Z)
    /\ isPlaying h' = isPlaying h
    /\ calls h'
       = calls h
         ++ (if onProgressGiven p then [OnProgress (index h')] else []).
Proof.
  intros Hne.
  assert (Hlen : (1 <= wordsLength p)%Z).
  { unfold wordsLength. destruct (words p); [contradiction|].
    cbn [length]. lia. }
  eexists. split; [reflexivity|].
  destruct (commit_frame p h (seek p n h)) as (Hi & Hpl & Hc).
  rewrite Hi, Hpl, Hc, index_seek.
  repeat split; try lia.
  - destruct h. unfold seek. destruct (onProgressGiven p); reflexivity.
  - destruct h. unfold seek. destruct (onProgressGiven p);
      cbn [calls invoke setInternalUpdate setIndex];
      rewrite ?app_nil_r; reflexivity.
Qed.

(** *** Stopping *)

(** X2. [stop] is idempotent: it leaves the hook Stopped with the index
    and the callback log untouched, and a second [stop] changes
    nothing. *)
Theorem stop_idempotent (h : Hook) :
  let h1 := commit p h (stop h) in
  step p Stop h = Some h1
  /\ step p Stop h1 = Some h1
  /\ isPlaying h1 = false
  /\ index h1 = index h
  /\ calls h1 = calls h.
Proof.
  intros h1.
  destruct (commit_frame p h (stop h)) as (Hi & Hpl & Hc).
  fold h1 in Hi, Hpl, Hc.
  assert (Hstop : isPlaying (stop h) = false /\ index (stop h) = index h
                  /\ calls (stop h) = calls h /\ timerRef (stop h) = None).
  { destruct h. unfold stop. cbn [timerRef].
    destruct timerRef0; repeat split; reflexivity. }
  destruct Hstop as (Hs1 & Hs2 & Hs3 & Hs4).
  assert (Hr : timerRef h1 = None).
  { subst h1. unfold commit. destruct (_ && _); [exact Hs4|].
    unfold rerunEffect, effectCleanup. rewrite Hs4.
    unfold effectBody. rewrite Hs1. cbn [andb]. exact Hs4. }
  split; [reflexivity|].
  split; [|repeat split; congruence].
  cbn [step].
  assert (E : stop h1 = h1).
  { unfold stop. rewrite Hr. destruct h1. cbn [isPlaying] in *.
    unfold setIsPlaying. cbn. congruence. }
  rewrite E. unfold commit. rewrite eqb_reflx, Z.eqb_refl. reflexivity.
Qed.

(** *** Timer and state agree *)

Lemma armed_oneTimer h : armed p h -> oneTimer h.
Proof.
  unfold armed, oneTimer. destruct (shouldRun p h).
  - intros [id [Hp Hr]]. right. eexists. split; [exact Hp | exact Hr].
  - intros Hp. left. exact Hp.
Qed.

Lemma armed_ext h h' :
  index h' = index h -> isPlaying h' = isPlaying h ->
  pending h' = pending h -> timerRef h' = timerRef h ->
  armed p h -> armed p h'.
Proof.
  intros Hi Hpl Hp Hr. unfold armed, shouldRun, wordAt.
  rewrite Hi, Hpl, Hp, Hr. auto.
Qed.

Lemma body_armed h : pending h = [] -> armed p (effectBody p h).
Proof.
  intros Hp. destruct h. cbn [pending] in Hp. subst.
  unfold effectBody, armed, shouldRun, wordAt. cbn [isPlaying index].
  destruct (isPlaying0 && (index0 <? wordsLength p)%Z) eqn:E.
  - unfold setTimeout, setTimerRef.
    cbn [isPlaying index pending timerRef nextHandle app]. rewrite E.
    eexists. split; reflexivity.
  - cbn [isPlaying index pending]. rewrite E. reflexivity.
Qed.

Lemma rerunEffect_armed h : oneTimer h -> armed p (rerunEffect p h).
Proof.
  intros H. unfold rerunEffect. apply body_armed. apply cleanup_clears, H.
Qed.

(** After the render that follows a handler the timer agrees with the
    state, provided the handler left it so whenever it changed neither
    [isPlaying] nor the index. *)
Lemma commit_armed before after :
  oneTimer after ->
  (isPlaying before = isPlaying after -> index before = index after ->
   armed p after) ->
  armed p (commit p before after).
Proof.
  intros H1 Hsame. unfold commit.
  destruct (Bool.eqb (isPlaying before) (isPlaying after)) eqn:E1;
    [|apply rerunEffect_armed, H1].
  destruct (Z.eqb_spec (index before) (index after)) as [E2|E2];
    [|apply rerunEffect_armed, H1].
  cbn [andb]. apply Hsame; [apply eqb_prop, E1 | exact E2].
Qed.

Lemma step_armed e h h' :
  step p e h = Some h' -> armed p h -> armed p h'.
Proof.
  intros Hs H. pose proof (armed_oneTimer h H) as H1.
  destruct e; cbn [step] in Hs.
  - inversion Hs; subst. apply commit_armed.
    + destruct h. unfold oneTimer in *. hook_cases; exact H1.
    + intros Hpl Hi. apply (armed_ext h); auto;
        destruct h; hook_cases; reflexivity.
  - inversion Hs; subst. apply commit_armed.
    + destruct h. unfold oneTimer in *. hook_cases; exact H1.
    + intros Hpl Hi. apply (armed_ext h); auto;
        destruct h; hook_cases; reflexivity.
  - inversion Hs; subst.
    destruct (stop_clears h H1) as (Hp & Hpl & _).
    apply commit_armed; [left; exact Hp|].
    intros _ _. unfold armed, shouldRun. rewrite Hpl. exact Hp.
  - destruct (pending h) as [|t others] eqn:Hp; [discriminate|].
    inversion Hs; subst.
    assert (Hothers : others = []).
    { destruct H1 as [H1 | [t' [H1 _]]]; rewrite Hp in H1;
        [discriminate | inversion H1; reflexivity]. }
    subst others.
    assert (Hrun : shouldRun p h = true).
    { unfold armed in H. destruct (shouldRun p h); [reflexivity|].
      rewrite Hp in H. discriminate. }
    assert (Hnone : pending (tick p (setPending [] h)) = [])
      by (apply tick_no_timer; reflexivity).
    apply commit_armed; [left; exact Hnone|].
    intros Hpl Hi. exfalso.
    unfold shouldRun in Hrun. apply andb_true_iff in Hrun.
    destruct Hrun as [Hplay Hlt]. apply Z.ltb_lt in Hlt.
    rewrite index_tick in Hi. cbn [setPending index] in Hi.
    rewrite Z.geb_leb in Hi.
    destruct (Z.leb_spec (wordsLength p) (index h + 1)) as [Hge|Hlt'];
      [|lia].
    assert (Hstopped : isPlaying (tick p (setPending [] h)) = false).
    { unfold tick. cbn [setPending index]. rewrite Z.geb_leb.
      destruct (Z.leb_spec (wordsLength p) (index h + 1)); [|lia].
      destruct (onProgressGiven p), (onCompleteGiven p);
        cbn [setIndex invoke isPlaying];
        apply stop_clears; left; reflexivity. }
    congruence.
  - inversion Hs; subst. apply rerunEffect_armed, H1.
Qed.

Lemma run_armed es : forall h h',
  run p es h = Some h' -> armed p h -> armed p h'.
Proof.
  induction es as [|e es IH]; intros h h' Hr H.
  - inversion Hr; subst. exact H.
  - cbn [run] in Hr. destruct (step p e h) as [h1|] eqn:Hs; [|discriminate].
    apply (IH h1 h' Hr). apply (step_armed e h h1 Hs H).
Qed.

(** X3. After any sequence of events, the timer agrees with the state:
    while the hook is playing at an index inside the stream, exactly one
    timer is pending, armed with the delay of the current word; while it
    is paused, or past the end, none is. *)
Theorem timer_follows_state (es : list Event) (h : Hook) :
  run p es (mount p) = Some h ->
  (isPlaying h = true -> (index h < wordsLength p)%Z ->
   exists id,
     pending h
     = [{| handle := id; delay := calculateDelay (wordAt p h) (wpm p) |}]
     /\ timerRef h = Some id)
  /\ (isPlaying h = false -> pending h = [])
  /\ ((wordsLength p <= index h)%Z -> pending h = []).
Proof.
  intros Hrun.
  assert (H : armed p h).
  { apply (run_armed es (mount p) h Hrun). unfold armed, shouldRun.
    reflexivity. }
  unfold armed, shouldRun in H. split; [|split].
  - intros Hpl Hlt. rewrite Hpl in H.
    apply Z.ltb_lt in Hlt. rewrite Hlt in H. exact H.
  - intros Hpl. rewrite Hpl in H. exact H.
  - intros Hge. apply Z.ltb_ge in Hge. rewrite Hge, andb_false_r in H.
    exact H.
Qed.

(** *** Playing to the end *)

Lemma progressRun_S from n :
  progressRun from (S n)
  = OnProgress (from + 1) :: progressRun (from + 1) n.
Proof.
  unfold progressRun. cbn [seq map]. rewrite Z.add_0_r. f_equal.
  rewrite <- seq_shift, map_map. apply map_ext. intros k.
  f_equal. lia.
Qed.

Lemma calls_stop h : calls (stop h) = calls h.
Proof.
  destruct h. unfold stop. cbn [timerRef]. destruct timerRef0; reflexivity.
Qed.

Lemma isPlaying_stop h : isPlaying (stop h) = false.
Proof.
  destruct h. unfold stop. cbn [timerRef]. destruct timerRef0; reflexivity.
Qed.

(** A tick before the last index moves on and reports; the tick at the
    last index reports the length, stops and completes. *)
Lemma tick_inside h :
  (index h + 1 < wordsLength p)%Z ->
  isPlaying (tick p h) = isPlaying h
  /\ calls (tick p h)
     = calls h
       ++ (if onProgressGiven p then [OnProgress (index h + 1)] else []).
Proof.
  intros Hlt. unfold tick. rewrite Z.geb_leb.
  destruct (Z.leb_spec (wordsLength p) (index h + 1)); [lia|].
  destruct h. destruct (onProgressGiven p);
    cbn [setIndex invoke setInternalUpdate isPlaying calls];
    rewrite ?app_nil_r; auto.
Qed.

Lemma tick_last h :
  (wordsLength p <= index h + 1)%Z ->
  isPlaying (tick p h) = false
  /\ calls (tick p h)
     = calls h
       ++ (if onProgressGiven p then [OnProgress (index h + 1)] else [])
       ++ (if onCompleteGiven p then [OnComplete] else []).
Proof.
  intros Hge. unfold tick. rewrite Z.geb_leb.
  destruct (Z.leb_spec (wordsLength p) (index h + 1)); [|lia].
  destruct (onProgressGiven p), (onCompleteGiven p);
    cbn [setIndex invoke isPlaying calls];
    rewrite ?isPlaying_stop, ?calls_stop;
    cbn [setIndex invoke setInternalUpdate isPlaying calls];
    rewrite <- ?app_assoc, ?app_nil_r; auto.
Qed.

Lemma armed_playing_pending h :
  armed p h -> isPlaying h = true -> (index h < wordsLength p)%Z ->
  exists t, pending h = [t].
Proof.
  unfold armed, shouldRun. intros H Hpl Hlt.
  apply Z.ltb_lt in Hlt. rewrite Hpl, Hlt in H.
  destruct H as [id [H _]]. eauto.
Qed.

Lemma timer_advances h :
  armed p h -> isPlaying h = true -> (index h + 1 < wordsLength p)%Z ->
  exists h',
    step p TimerFires h = Some h'
    /\ armed p h' /\ isPlaying h' = true
    /\ index h' = (index h + 1)%Z
    /\ calls h'
       = calls h
         ++ (if onProgressGiven p then [OnProgress (index h + 1)] else []).
Proof.
  intros H Hpl Hlt.
  destruct (armed_playing_pending h H Hpl ltac:(lia)) as [t Hp].
  assert (Hs : step p TimerFires h
               = Some (commit p h (tick p (setPending [] h)))).
  { cbn [step]. rewrite Hp. reflexivity. }
  eexists. split; [exact Hs|].
  split; [apply (step_armed TimerFires h _ Hs H)|].
  destruct (commit_frame p h (tick p (setPending [] h))) as (Hi & Hq & Hc).
  destruct (tick_inside (setPending [] h) Hlt) as [Ht1 Ht2].
  rewrite Hi, Hq, Hc, Ht1, Ht2, index_tick.
  cbn [setPending index isPlaying calls].
  rewrite Z.geb_leb.
  destruct (Z.leb_spec (wordsLength p) (index h + 1)); [lia|]. auto.
Qed.

Lemma timer_completes h :
  armed p h -> isPlaying h = true ->
  (index h + 1 = wordsLength p)%Z ->
  exists h',
    step p TimerFires h = Some h'
    /\ armed p h' /\ isPlaying h' = false
    /\ index h' = index h
    /\ calls h'
       = calls h
         ++ (if onProgressGiven p then [OnProgress (index h + 1)] else [])
         ++ (if onCompleteGiven p then [OnComplete] else []).
Proof.
  intros H Hpl Hlast.
  destruct (armed_playing_pending h H Hpl ltac:(lia)) as [t Hp].
  assert (Hs : step p TimerFires h
               = Some (commit p h (tick p (setPending [] h)))).
  { cbn [step]. rewrite Hp. reflexivity. }
  eexists. split; [exact Hs|].
  split; [apply (step_armed TimerFires h _ Hs H)|].
  destruct (commit_frame p h (tick p (setPending [] h))) as (Hi & Hq & Hc).
  destruct (tick_last (setPending [] h)) as [Ht1 Ht2];
    [cbn [setPending index]; lia|].
  rewrite Hi, Hq, Hc, Ht1, Ht2, index_tick.
  cbn [setPending index isPlaying calls].
  rewrite Z.geb_leb.
  destruct (Z.leb_spec (wordsLength p) (index h + 1)); [|lia]. auto.
Qed.

Lemma autoplay_from n : forall h,
  armed p h -> isPlaying h = true ->
  (wordsLength p - index h = Z.of_nat (S n))%Z ->
  exists h',
    run p (repeat TimerFires (S n)) h = Some h'
    /\ armed p h' /\ isPlaying h' = false
    /\ index h' = (wordsLength p - 1)%Z
    /\ calls h'
       = calls h
         ++ (if onProgressGiven p then progressRun (index h) (S n) else [])
         ++ (if onCompleteGiven p then [OnComplete] else []).
Proof.
  induction n as [|n IH]; intros h H Hpl Hn.
  - destruct (timer_completes h H Hpl ltac:(lia))
      as (h' & Hs & Ha & Hq & Hi & Hc).
    exists h'. cbn [repeat run]. rewrite Hs.
    split; [reflexivity|]. split; [exact Ha|]. split; [exact Hq|].
    split; [lia|]. rewrite Hc. unfold progressRun. cbn [seq map].
    rewrite Z.add_0_r. reflexivity.
  - destruct (timer_advances h H Hpl ltac:(lia))
      as (h1 & Hs & Ha & Hq & Hi & Hc).
    destruct (IH h1 Ha Hq ltac:(lia)) as (h' & Hr & Ha' & Hq' & Hi' & Hc').
    exists h'. change (repeat TimerFires (S (S n)))
      with (TimerFires :: repeat TimerFires (S n)).
    cbn [run]. rewrite Hs.
    split; [exact Hr|]. split; [exact Ha'|]. split; [exact Hq'|].
    split; [exact Hi'|]. rewrite Hc', Hc, Hi.
    rewrite (progressRun_S (index h) (S n)).
    destruct (onProgressGiven p); rewrite <- ?app_assoc; reflexivity.
Qed.

(** X4. Playback runs to the end: from any reachable state that is playing
    at an index inside the stream, the timer fires once for every token
    from the current one to the last; the hook then is Stopped at the
    last index with no timer pending, every tick has reported the next
    index (the last one the stream length), [onComplete] was invoked
    once, after the reports, and the timer cannot fire again. *)
Theorem autoplay_completes (es : list Event) (h : Hook) :
  run p es (mount p) = Some h ->
  isPlaying h = true ->
  (index h < wordsLength p)%Z ->
  let n := Z.to_nat (wordsLength p - index h) in
  exists h',
    run p (repeat TimerFires n) h = Some h'
    /\ isPlaying h' = false
    /\ index h' = (wordsLength p - 1)%Z
    /\ pending h' = []
    /\ step p TimerFires h' = None
    /\ calls h'
       = calls h
         ++ (if onProgressGiven p then progressRun (index h) n else [])
         ++ (if onCompleteGiven p then [OnComplete] else []).
Proof.
  intros Hrun Hpl Hlt n.
  assert (H : armed p h).
  { apply (run_armed es (mount p) h Hrun). unfold armed, shouldRun.
    reflexivity. }
  destruct (Z.to_nat (wordsLength p - index h)) as [|m] eqn:Hn; [lia|].
  subst n.
  destruct (autoplay_from m h H Hpl ltac:(lia))
    as (h' & Hr & Ha & Hq & Hi & Hc).
  exists h'. split; [exact Hr|]. split; [exact Hq|]. split; [exact Hi|].
  assert (Hp : pending h' = []).
  { unfold armed, shouldRun in Ha. rewrite Hq in Ha. exact Ha. }
  split; [exact Hp|]. split; [cbn [step]; rewrite Hp; reflexivity|].
  exact Hc.
Qed.

(** *** Toggling *)

Lemma togglePlay_inside h :
  (index h < wordsLength p - 1)%Z ->
  togglePlay p h = setIsPlaying (negb (isPlaying h)) h.
Proof.
  intros Hlt. unfold togglePlay. rewrite Z.geb_leb.
  destruct (Z.leb_spec (wordsLength p - 1) (index h)); [lia|reflexivity].
Qed.

Lemma togglePlay_at_end h :
  (wordsLength p - 1 <= index h)%Z ->
  togglePlay p h = setIsPlaying true (setIndex 0 h).
Proof.
  intros Hge. unfold togglePlay. rewrite Z.geb_leb.
  destruct (Z.leb_spec (wordsLength p - 1) (index h)); [reflexivity|lia].
Qed.

(** X5. At or past the last index [togglePlay] never pauses: on a
    non-empty stream it restarts from the first token, playing, with the
    timer armed for the delay of the first token. *)
Theorem togglePlay_at_end_restarts (es : list Event) (h : Hook) :
  run p es (mount p) = Some h ->
  words p <> [] ->
  (wordsLength p - 1 <= index h)%Z ->
  exists h',
    step p TogglePlay h = Some h'
    /\ index h' = 0%Z
    /\ isPlaying h' = true
    /\ calls h' = calls h
    /\ exists id,
         pending h'
         = [{| handle := id;
               delay := calculateDelay (hd [] (words p)) (wpm p) |}].
Proof.
  intros Hrun Hne Hge.
  assert (H : armed p h).
  { apply (run_armed es (mount p) h Hrun). unfold armed, shouldRun.
    reflexivity. }
  eexists. split; [reflexivity|].
  pose proof (step_armed TogglePlay h _ eq_refl H) as Ha.
  cbn [step] in Ha.
  destruct (commit_frame p h (togglePlay p h)) as (Hi & Hq & Hc).
  pose proof (togglePlay_at_end h Hge) as E.
  rewrite E in Hi at 2. rewrite E in Hq at 2. rewrite E in Hc at 2.
  cbn [setIsPlaying setIndex index isPlaying calls] in Hi, Hq, Hc.
  split; [exact Hi|]. split; [exact Hq|]. split; [exact Hc|].
  unfold armed, shouldRun, wordAt in Ha. rewrite Hi, Hq in Ha.
  assert (Hlen : (0 <? wordsLength p)%Z = true).
  { apply Z.ltb_lt. unfold wordsLength. destruct (words p); [contradiction|].
    cbn [length]. lia. }
  rewrite Hlen in Ha. cbn [andb] in Ha.
  destruct Ha as [id [Hp _]]. exists id. rewrite Hp.
  destruct (words p); [contradiction|]. reflexivity.
Qed.

(** X6. Before the last index [togglePlay] flips between Playing and
    Stopped without moving the index or invoking a callback: pausing
    leaves no timer pending, and toggling twice restores [isPlaying]. *)
Theorem togglePlay_twice (es : list Event) (h : Hook) :
  run p es (mount p) = Some h ->
  (index h < wordsLength p - 1)%Z ->
  exists h1 h2,
    step p TogglePlay h = Some h1
    /\ step p TogglePlay h1 = Some h2
    /\ index h1 = index h /\ isPlaying h1 = negb (isPlaying h)
    /\ calls h1 = calls h
    /\ (isPlaying h = true -> pending h1 = [])
    /\ index h2 = index h /\ isPlaying h2 = isPlaying h
    /\ calls h2 = calls h.
Proof.
  intros Hrun Hlt.
  assert (H : armed p h).
  { apply (run_armed es (mount p) h Hrun). unfold armed, shouldRun.
    reflexivity. }
  eexists. eexists. split; [reflexivity|]. split; [reflexivity|].
  pose proof (step_armed TogglePlay h _ eq_refl H) as Ha.
  cbn [step] in Ha.
  destruct (commit_frame p h (togglePlay p h)) as (Hi & Hq & Hc).
  pose proof (togglePlay_inside h Hlt) as E.
  rewrite E in Hi at 2. rewrite E in Hq at 2. rewrite E in Hc at 2.
  cbn [setIsPlaying index isPlaying calls] in Hi, Hq, Hc.
  set (h1 := commit p h (togglePlay p h)) in *.
  destruct (commit_frame p h1 (togglePlay p h1)) as (Hi2 & Hq2 & Hc2).
  pose proof (togglePlay_inside h1 ltac:(lia)) as E1.
  rewrite E1 in Hi2 at 2. rewrite E1 in Hq2 at 2. rewrite E1 in Hc2 at 2.
  cbn [setIsPlaying index isPlaying calls] in Hi2, Hq2, Hc2.
  repeat split; try congruence.
  - intros Hpl. unfold armed, shouldRun in Ha. rewrite Hq, Hpl in Ha.
    exact Ha.
  - rewrite Hq2, Hq. apply negb_involutive.
Qed.

End MoreScheduler.

Section MoreSchedulerInstances.

Lemma seek_clamps_witness :
  exists h1 h2,
    step hundredProps (Seek (-5)) (mount hundredProps) = Some h1
    /\ index h1 = 0%Z
    /\ step hundredProps (Seek 500) (mount hundredProps) = Some h2
    /\ index h2 = 99%Z.
Proof.
  assert (Hne : words hundredProps <> []) by discriminate.
  assert (Hlen : wordsLength hundredProps = 100%Z) by reflexivity.
  destruct (seek_clamps hundredProps (-5) (mount hundredProps) Hne)
    as (h1 & Hs1 & _ & _ & _ & Hlow & _).
  destruct (seek_clamps hundredProps 500 (mount hundredProps) Hne)
    as (h2 & Hs2 & _ & _ & _ & _ & Hhigh & _).
  exists h1, h2. split; [exact Hs1|]. split; [apply Hlow; lia|].
  split; [exact Hs2|]. rewrite Hhigh; [rewrite Hlen; reflexivity|].
  rewrite Hlen. lia.
Defined.

Lemma timer_follows_state_witness :
  exists h id,
    run (helloProps 0) [TogglePlay; TimerFires; Seek 3]
        (mount (helloProps 0)) = Some h
    /\ pending h
       = [{| handle := id;
             delay := calculateDelay (wordAt (helloProps 0) h) 300 |}].
Proof.
  assert (Hrun : run (helloProps 0) [TogglePlay; TimerFires; Seek 3]
                   (mount (helloProps 0))
                 = Some {| index := 3; isPlaying := true;
                           timerRef := Some 3%nat; isInternalUpdate := true;
                           pending := [{| handle := 3;
                             delay := calculateDelay (lit "is") 300 |}];
                           nextHandle := 4;
                           calls := [OnProgress 1; OnProgress 3] |})
    by (vm_compute; reflexivity).
  destruct (proj1 (timer_follows_state (helloProps 0) _ _ Hrun)
                  eq_refl eq_refl) as [id [Hp _]].
  eexists. exists id. split; [exact Hrun | exact Hp].
Defined.

Lemma autoplay_completes_witness :
  exists h h',
    run (helloProps 0) [TogglePlay] (mount (helloProps 0)) = Some h
    /\ run (helloProps 0) (repeat TimerFires 5) h = Some h'
    /\ isPlaying h' = false /\ index h' = 4%Z.
Proof.
  assert (Hrun : run (helloProps 0) [TogglePlay] (mount (helloProps 0))
                 = Some {| index := 0; isPlaying := true;
                           timerRef := Some 1%nat;
                           isInternalUpdate := false;
                           pending := [{| handle := 1;
                             delay := calculateDelay (lit "Hello,") 300 |}];
                           nextHandle := 2; calls := [] |})
    by (vm_compute; reflexivity).
  destruct (autoplay_completes (helloProps 0) _ _ Hrun eq_refl eq_refl)
    as (h' & Hr & Hq & Hi & _).
  eexists. exists h'. split; [exact Hrun|]. split; [exact Hr|].
  split; [exact Hq | exact Hi].
Defined.

Lemma togglePlay_at_end_restarts_witness :
  exists h h',
    run (helloProps 0) autoplay5 (mount (helloProps 0)) = Some h
    /\ index h = 4%Z
    /\ step (helloProps 0) TogglePlay h = Some h'
    /\ index h' = 0%Z /\ isPlaying h' = true.
Proof.
  assert (Hrun : run (helloProps 0) autoplay5 (mount (helloProps 0))
                 = Some {| index := 4; isPlaying := false; timerRef := None;
                           isInternalUpdate := true; pending := [];
                           nextHandle := 6;
                           calls := [OnProgress 1; OnProgress 2; OnProgress 3;
                                     OnProgress 4; OnProgress 5;
                                     OnComplete] |})
    by (vm_compute; reflexivity).
  assert (Hne : words (helloProps 0) <> []) by (vm_compute; discriminate).
  assert (Hge : (wordsLength (helloProps 0) - 1
                 <= index {| index := 4; isPlaying := false;
                             timerRef := None; isInternalUpdate := true;
                             pending := []; nextHandle := 6;
                             calls := [OnProgress 1; OnProgress 2;
                                       OnProgress 3; OnProgress 4;
                                       OnProgress 5; OnComplete] |})%Z)
    by (vm_compute; discriminate).
  destruct (togglePlay_at_end_restarts (helloProps 0) _ _ Hrun Hne Hge)
    as (h' & Hs & Hi & Hq & _).
  eexists. exists h'. split; [exact Hrun|]. split; [reflexivity|].
  split; [exact Hs|]. split; [exact Hi | exact Hq].
Defined.

Lemma togglePlay_twice_witness :
  exists h1 h2,
    step (helloProps 0) TogglePlay (mount (helloProps 0)) = Some h1
    /\ step (helloProps 0) TogglePlay h1 = Some h2
    /\ isPlaying h1 = true /\ isPlaying h2 = false
    /\ index h2 = 0%Z.
Proof.
  assert (Hlt : (index (mount (helloProps 0))
                 < wordsLength (helloProps 0) - 1)%Z)
    by (vm_compute; reflexivity).
  destruct (togglePlay_twice (helloProps 0) [] (mount (helloProps 0))
              eq_refl Hlt)
    as (h1 & h2 & Hs1 & Hs2 & _ & Hq1 & _ & _ & Hi2 & Hq2 & _).
  exists h1, h2. split; [exact Hs1|]. split; [exact Hs2|].
  split; [exact Hq1|]. split; [exact Hq2 | exact Hi2].
Defined.

End MoreSchedulerInstances.

(** ** The displayed word *)

Section Pivot.

Import Reader.

Lemma floor03_lt (n : nat) : (0 < n)%nat -> (floor03 n < Z.of_nat n)%Z.
Proof.
  intros Hn. rewrite floor03_div.
  apply Z.div_lt_upper_bound; lia.
Qed.

Lemma getORPIndex_inside (word : jsstring) :
  word <> [] -> (0 <= getORPIndex word < Z.of_nat (length word))%Z.
Proof.
  intros Hne.
  assert (Hlen : (0 < length word)%nat).
  { destruct word; [contradiction | cbn [length]; lia]. }
  unfold getORPIndex.
  destruct (orpMatch word) as [[[p c] s]|] eqn:E.
  - apply orpMatch_length in E.
    destruct (Nat.eqb_spec (length c) 0) as [H0|H0]; [lia|].
    pose proof (floor03_bounds (length c)).
    pose proof (floor03_lt (length c) ltac:(lia)). lia.
  - pose proof (floor03_bounds (length word)).
    pose proof (floor03_lt (length word) Hlen). lia.
Qed.

(** Cutting a list around one of its positions. *)
Lemma slice_around {A} (a : list A) (i : Z) (x : A) :
  (0 <= i)%Z -> nth_error a (Z.to_nat i) = Some x ->
  slice a 0 i ++ x :: sliceFrom a (i + 1) = a.
Proof.
  intros Hi Hx.
  destruct (nth_error_split a (Z.to_nat i) Hx) as (l1 & l2 & Ha & Hl).
  assert (Hlen : (Z.to_nat i < length a)%nat)
    by (apply nth_error_Some; congruence).
  unfold sliceFrom.
  rewrite (slice_inner a 0 i) by lia.
  rewrite (slice_inner a (i + 1) (Z.of_nat (length a))) by lia.
  assert (E1 : firstn (Z.to_nat (i - 0)) (skipn (Z.to_nat 0) a) = l1).
  { replace (Z.to_nat (i - 0)) with (length l1) by lia. subst a.
    cbn [Z.to_nat skipn].
    rewrite firstn_app, firstn_all, Nat.sub_diag. cbn [firstn].
    apply app_nil_r. }
  assert (E2 : skipn (Z.to_nat (i + 1)) a = l2).
  { replace (Z.to_nat (i + 1)) with (S (length l1)) by lia. subst a.
    rewrite skipn_app, skipn_all2 by lia.
    replace (S (length l1) - length l1)%nat with 1%nat by lia.
    reflexivity. }
  rewrite E1, E2. rewrite firstn_all2; [symmetry; exact Ha|].
  subst a. rewrite length_app. cbn [length]. lia.
Qed.

(** X7. The three parts the RSVP view draws always make up the word
    again, and for a non-empty word the pivot is a unit of the word: the
    offset is strictly below the length. *)
Theorem word_display_parts (safeWord : jsstring) :
  leftPart safeWord ++ pivotChar safeWord ++ rightPart safeWord = safeWord
  /\ (safeWord <> [] ->
      (0 <= getORPIndex safeWord < Z.of_nat (length safeWord))%Z
      /\ exists c, pivotChar safeWord = [c]).
Proof.
  destruct safeWord as [|c0 w].
  - split; [reflexivity|]. intros H. contradiction.
  - assert (Hne : c0 :: w <> []) by discriminate.
    pose proof (getORPIndex_inside (c0 :: w) Hne) as Hin.
    set (word := c0 :: w) in *.
    destruct (nth_error word (Z.to_nat (getORPIndex word))) as [x|] eqn:Hx.
    2:{ apply nth_error_None in Hx. lia. }
    assert (Hp : pivotChar word = [x]).
    { unfold pivotChar, at_index.
      destruct (Z.ltb_spec (getORPIndex word) 0); [lia|].
      rewrite Hx. reflexivity. }
    split.
    + rewrite Hp. unfold leftPart, rightPart. cbn [app].
      apply slice_around; [lia | exact Hx].
    + intros _. split; [exact Hin | eauto].
Qed.

Lemma word_display_parts_witness :
  (0 <= getORPIndex (lit "world.") < 6)%Z
  /\ exists c, pivotChar (lit "world.") = [c].
Proof.
  assert (Hne : lit "world." <> []) by discriminate.
  exact (proj2 (word_display_parts (lit "world.")) Hne).
Defined.

(** X8. When the token matches with a non-empty core, the pivot is a unit
    of the core, never one of the stripped leading or trailing marks: it
    is the unit at offset [floor(0.3 * length)] of the core. *)
Theorem pivot_in_core (word prefix core suffix : jsstring) :
  orpMatch word = Some (prefix, core, suffix) ->
  core <> [] ->
  (Z.of_nat (length prefix) <= getORPIndex word
   < Z.of_nat (length prefix + length core))%Z
  /\ at_index word (getORPIndex word) = at_index core (floor03 (length core)).
Proof.
  intros E Hne.
  assert (Hlen : (0 < length core)%nat).
  { destruct core; [contradiction | cbn [length]; lia]. }
  pose proof (floor03_bounds (length core)) as Hb.
  pose proof (floor03_lt (length core) Hlen) as Hlt.
  assert (Hw : word = prefix ++ core ++ suffix).
  { unfold orpMatch in E. apply greedyPrefix_pieces in E. exact E. }
  assert (Horp : getORPIndex word
                 = (Z.of_nat (length prefix) + floor03 (length core))%Z).
  { unfold getORPIndex. rewrite E.
    destruct (Nat.eqb_spec (length core) 0); [lia | reflexivity]. }
  rewrite Horp. split; [lia|].
  unfold at_index.
  destruct (Z.ltb_spec (Z.of_nat (length prefix) + floor03 (length core)) 0);
    [lia|].
  destruct (Z.ltb_spec (floor03 (length core)) 0); [lia|].
  subst word.
  replace (Z.to_nat (Z.of_nat (length prefix) + floor03 (length core)))
    with (length prefix + Z.to_nat (floor03 (length core)))%nat by lia.
  rewrite nth_error_app2 by lia.
  replace (length prefix + Z.to_nat (floor03 (length core)) - length prefix)%nat
    with (Z.to_nat (floor03 (length core))) by lia.
  apply nth_error_app1. lia.
Qed.

Lemma pivot_in_core_witness :
  orpMatch (lit "('hi').") = Some (lit "('", lit "hi", lit "').")
  /\ getORPIndex (lit "('hi').") = 2%Z
  /\ at_index (lit "('hi').") (getORPIndex (lit "('hi')."))
     = at_index (lit "hi") 0.
Proof.
  assert (E : orpMatch (lit "('hi').") = Some (lit "('", lit "hi", lit "')."))
    by reflexivity.
  assert (Hne : lit "hi" <> []) by discriminate.
  split; [exact E|]. split; [reflexivity|].
  exact (proj2 (pivot_in_core (lit "('hi').") _ _ _ E Hne)).
Defined.

End Pivot.

(** ** Parsing a book into paragraphs *)

Section Parsing.

Import Paragraph Reader.

(** White space closes the token being read and starts afresh. *)
Lemma scan_space_between a : forall acc c b,
  isSpace c = true ->
  scan acc (a ++ c :: b) = scan acc a ++ scan [] b.
Proof.
  induction a as [|x a IH]; intros acc c b Hc; cbn [app scan].
  - rewrite Hc. reflexivity.
  - destruct (isSpace x).
    + rewrite IH by exact Hc. apply app_assoc.
    + destruct (PUNCTUATION_PADDING x).
      * rewrite IH by exact Hc. rewrite <- app_assoc. reflexivity.
      * apply IH. exact Hc.
Qed.

Lemma scan_trimStart a : scan [] (trimStart a) = scan [] a.
Proof.
  induction a as [|x a IH]; [reflexivity|].
  cbn [trimStart]. destruct (isSpace x) eqn:Hx; [|reflexivity].
  cbn [scan]. rewrite Hx. exact IH.
Qed.

Lemma trimEnd_snoc a c :
  trimEnd (a ++ [c]) = if isSpace c then trimEnd a else a ++ [c].
Proof.
  unfold trimEnd. rewrite rev_app_distr. cbn [rev app trimStart].
  destruct (isSpace c); [reflexivity|].
  cbn [rev]. rewrite rev_involutive. reflexivity.
Qed.

Lemma scan_trimEnd a : forall acc, scan acc (trimEnd a) = scan acc a.
Proof.
  induction a as [|c a IH] using rev_ind; intros acc; [reflexivity|].
  rewrite trimEnd_snoc. destruct (isSpace c) eqn:Hc; [|reflexivity].
  rewrite scan_space_between by exact Hc. cbn [scan emit].
  rewrite app_nil_r. apply IH.
Qed.

Lemma tokenize_trim chunk : tokenize (trim chunk) = tokenize chunk.
Proof.
  rewrite !tokenize_scan. unfold trim.
  rewrite scan_trimEnd. apply scan_trimStart.
Qed.

(** The tokens of the lines of a text are the tokens of the text. *)
Lemma scan_lines s : forall acc,
  concat (map (scan []) (splitOn_go newline acc s)) = scan [] (rev acc ++ s).
Proof.
  induction s as [|c s IH]; intros acc; cbn [splitOn_go].
  - cbn [map concat]. rewrite !app_nil_r. reflexivity.
  - destruct (N.eqb_spec c newline) as [->|Hc].
    + cbn [map concat]. rewrite IH. cbn [rev app].
      rewrite scan_space_between by reflexivity. reflexivity.
    + rewrite IH. cbn [rev]. rewrite <- app_assoc. reflexivity.
Qed.

(** What one chunk adds to the accumulators. *)
Lemma parseChunk_spec st chunk :
  let tokens := tokenize chunk in
  flatWords (parseChunk st chunk) = flatWords st ++ tokens
  /\ globalWordCount (parseChunk st chunk)
     = (globalWordCount st + Z.of_nat (length tokens))%Z
  /\ parsedParagraphs (parseChunk st chunk)
     = parsedParagraphs st
       ++ match tokens with
          | [] => []
          | _ :: _ =>
              [{| text := joinWithSpace tokens;
                  startIndex := globalWordCount st;
                  wordCount := Z.of_nat (length tokens);
                  words := tokens |}]
          end.
Proof.
  intros tokens. subst tokens. rewrite <- (tokenize_trim chunk).
  unfold parseChunk. destruct (trim chunk) as [|c t] eqn:Ht.
  - cbn [tokenize length]. rewrite !app_nil_r, Z.add_0_r. auto.
  - destruct (tokenize (c :: t)) as [|w ws] eqn:Hk.
    + cbn [length Nat.eqb]. rewrite !app_nil_r, Z.add_0_r. auto.
    + cbn [length Nat.eqb flatWords globalWordCount parsedParagraphs]. auto.
Qed.

(** X9. Cutting the text into paragraphs does not change the word stream:
    the flat word list of a parsed book is [tokenize] of its whole
    content, and the running count is its length. *)
Theorem parseBook_words (content : jsstring) :
  flatWords (parseBook content) = tokenize content
  /\ globalWordCount (parseBook content)
     = Z.of_nat (length (tokenize content)).
Proof.
  unfold parseBook. rewrite cleanText_identity.
  assert (H : forall chunks st,
    flatWords (fold_left parseChunk chunks st)
    = flatWords st ++ concat (map (scan []) chunks)
    /\ globalWordCount (fold_left parseChunk chunks st)
       = (globalWordCount st
          + Z.of_nat (length (concat (map (scan []) chunks))))%Z).
  { induction chunks as [|ch chunks IH]; intros st; cbn [fold_left map concat].
    - rewrite app_nil_r. cbn [length]. rewrite Z.add_0_r. auto.
    - destruct (IH (parseChunk st ch)) as [IH1 IH2].
      destruct (parseChunk_spec st ch) as (H1 & H2 & _).
      rewrite tokenize_scan in H1, H2.
      rewrite IH1, IH2, H1, H2, length_app, <- app_assoc.
      split; [reflexivity | lia]. }
  specialize (H (splitOn newline content)
                {| parsedParagraphs := []; flatWords := [];
                   globalWordCount := 0 |}).
  cbn [flatWords globalWordCount app] in H.
  unfold splitOn in *. rewrite scan_lines in H. cbn [rev app] in H.
  rewrite tokenize_scan. destruct H as [H1 H2]. rewrite H1, H2.
  split; [reflexivity | lia].
Qed.

(** *** The paragraphs tile the word stream *)

Lemma tiles_snoc ps : forall from flat q,
  tiles from ps flat ->
  startIndex q = (from + Z.of_nat (length flat))%Z ->
  wordCount q = Z.of_nat (length (words q)) ->
  words q <> [] ->
  text q = joinWithSpace (words q) ->
  tiles from (ps ++ [q]) (flat ++ words q).
Proof.
  induction ps as [|q0 ps IH]; intros from flat q Ht Hs Hc Hne Htx.
  - cbn [tiles] in Ht. subst flat. cbn [app tiles length] in *.
    repeat split; try assumption; [lia|].
    exists []. rewrite app_nil_r. auto.
  - cbn [tiles] in Ht.
    destruct Ht as (Hs0 & Hc0 & Hne0 & Htx0 & rest & Hflat & Hrest).
    cbn [app tiles]. repeat split; try assumption.
    exists (rest ++ words q). split.
    + subst flat. rewrite app_assoc. reflexivity.
    + apply IH; try assumption. subst flat. rewrite length_app in Hs. lia.
Qed.

Lemma parseChunk_tiles st chunk :
  tiles 0 (parsedParagraphs st) (flatWords st) ->
  globalWordCount st = Z.of_nat (length (flatWords st)) ->
  tiles 0 (parsedParagraphs (parseChunk st chunk))
        (flatWords (parseChunk st chunk))
  /\ globalWordCount (parseChunk st chunk)
     = Z.of_nat (length (flatWords (parseChunk st chunk))).
Proof.
  intros Ht Hg. destruct (parseChunk_spec st chunk) as (H1 & H2 & H3).
  rewrite H1, H2, H3, length_app. split; [|lia].
  destruct (tokenize chunk) as [|w ws].
  - rewrite !app_nil_r. exact Ht.
  - apply tiles_snoc; cbn [startIndex wordCount words text];
      try reflexivity; try assumption; try discriminate; lia.
Qed.

Lemma parseBook_tiles content :
  tiles 0 (parsedParagraphs (parseBook content))
        (flatWords (parseBook content)).
Proof.
  unfold parseBook.
  assert (H : forall chunks st,
    tiles 0 (parsedParagraphs st) (flatWords st) ->
    globalWordCount st = Z.of_nat (length (flatWords st)) ->
    tiles 0 (parsedParagraphs (fold_left parseChunk chunks st))
          (flatWords (fold_left parseChunk chunks st))).
  { induction chunks as [|ch chunks IH]; intros st Ht Hg; [exact Ht|].
    cbn [fold_left]. destruct (parseChunk_tiles st ch Ht Hg).
    apply IH; assumption. }
  apply H; reflexivity.
Qed.

Lemma tiles_nth ps : forall from flat i q,
  tiles from ps flat -> nth_error ps i = Some q ->
  (from <= startIndex q)%Z
  /\ (0 < wordCount q)%Z
  /\ wordCount q = Z.of_nat (length (words q))
  /\ text q = joinWithSpace (words q)
  /\ (startIndex q + wordCount q <= from + Z.of_nat (length flat))%Z
  /\ words q
     = firstn (length (words q))
              (skipn (Z.to_nat (startIndex q - from)) flat).
Proof.
  induction ps as [|q0 ps IH]; intros from flat i q Ht Hq;
    [destruct i; discriminate|].
  cbn [tiles] in Ht.
  destruct Ht as (Hs0 & Hc0 & Hne0 & Htx0 & rest & Hflat & Hrest).
  assert (Hpos : (0 < length (words q0))%nat).
  { destruct (words q0); [contradiction | cbn [length]; lia]. }
  destruct i as [|i]; cbn [nth_error] in Hq.
  - inversion Hq; subst q0. subst flat. rewrite length_app.
    repeat split; try assumption; try lia.
    rewrite Hs0, Z.sub_diag. cbn [Z.to_nat skipn].
    rewrite firstn_app, firstn_all, Nat.sub_diag. cbn [firstn].
    symmetry. apply app_nil_r.
  - destruct (IH _ _ i q Hrest Hq) as (H1 & H2 & H3 & H4 & H5 & H6).
    subst flat. rewrite length_app.
    repeat split; try assumption; try lia.
    replace (Z.to_nat (startIndex q - from))
      with (length (words q0)
            + Z.to_nat (startIndex q - (from + wordCount q0)))%nat by lia.
    rewrite skipn_app, skipn_all2 by lia. cbn [app].
    replace (length (words q0)
             + Z.to_nat (startIndex q - (from + wordCount q0))
             - length (words q0))%nat
      with (Z.to_nat (startIndex q - (from + wordCount q0))) by lia.
    exact H6.
Qed.

Lemma tiles_consecutive ps : forall from flat i q q',
  tiles from ps flat ->
  nth_error ps i = Some q -> nth_error ps (S i) = Some q' ->
  startIndex q' = (startIndex q + wordCount q)%Z.
Proof.
  induction ps as [|q0 ps IH]; intros from flat i q q' Ht Hq Hq';
    [destruct i; discriminate|].
  cbn [tiles] in Ht.
  destruct Ht as (Hs0 & Hc0 & Hne0 & Htx0 & rest & Hflat & Hrest).
  destruct i as [|i]; cbn [nth_error] in Hq, Hq'.
  - inversion Hq; subst q0.
    destruct ps as [|q1 ps]; [discriminate|]. cbn [nth_error] in Hq'.
    inversion Hq'; subst q1. cbn [tiles] in Hrest.
    destruct Hrest as (Hs1 & _). lia.
  - apply (IH _ _ i q q' Hrest Hq Hq').
Qed.

Lemma tiles_end ps : forall from flat q,
  tiles from ps flat ->
  nth_error ps (length ps - 1) = Some q ->
  (startIndex q + wordCount q = from + Z.of_nat (length flat))%Z.
Proof.
  induction ps as [|q0 ps IH]; intros from flat q Ht Hq; [discriminate|].
  cbn [tiles] in Ht.
  destruct Ht as (Hs0 & Hc0 & Hne0 & Htx0 & rest & Hflat & Hrest).
  subst flat. rewrite length_app.
  destruct ps as [|q1 ps].
  - cbn in Hq. inversion Hq; subst q0. cbn [tiles] in Hrest. subst rest.
    cbn [length]. lia.
  - replace (length (q0 :: q1 :: ps) - 1)%nat
      with (S (length (q1 :: ps) - 1)) in Hq by (cbn [length]; lia).
    cbn [nth_error] in Hq.
    rewrite (IH _ _ q Hrest Hq). lia.
Qed.

(** X10. The paragraphs of a parsed book partition its word stream: every
    paragraph holds at least one token, counts its tokens, shows them
    joined by single spaces and holds exactly the tokens of the stream
    from its start index on; the first paragraph starts at 0, each next
    one starts where the previous one ends, and the last one ends at the
    length of the stream. *)
Theorem parseBook_partition (content : jsstring) :
  let ps := parsedParagraphs (parseBook content) in
  let flat := flatWords (parseBook content) in
  (forall i q, nth_error ps i = Some q ->
     (0 < wordCount q)%Z
     /\ wordCount q = Z.of_nat (length (words q))
     /\ text q = joinWithSpace (words q)
     /\ (0 <= startIndex q)%Z
     /\ words q = slice flat (startIndex q) (startIndex q + wordCount q))
  /\ (forall q, nth_error ps 0 = Some q -> startIndex q = 0%Z)
  /\ (forall i q q',
        nth_error ps i = Some q -> nth_error ps (S i) = Some q' ->
        startIndex q' = (startIndex q + wordCount q)%Z)
  /\ (forall q, nth_error ps (length ps - 1) = Some q ->
        (startIndex q + wordCount q)%Z = Z.of_nat (length flat))
  /\ (ps = [] <-> flat = []).
Proof.
  intros ps flat.
  pose proof (parseBook_tiles content) as Ht. fold ps flat in Ht.
  split; [|split; [|split; [|split]]].
  - intros i q Hq.
    destruct (tiles_nth ps 0 flat i q Ht Hq) as (H1 & H2 & H3 & H4 & H5 & H6).
    repeat split; try assumption.
    rewrite slice_inner by lia. rewrite Z.sub_0_r in H6.
    replace (Z.to_nat (startIndex q + wordCount q - startIndex q))
      with (length (words q)) by lia.
    exact H6.
  - intros q Hq. destruct ps as [|q0 ps']; [discriminate|].
    cbn [nth_error] in Hq. inversion Hq; subst q0.
    cbn [tiles] in Ht. tauto.
  - intros i q q' Hq Hq'. apply (tiles_consecutive ps 0 flat i q q' Ht Hq Hq').
  - intros q Hq. rewrite (tiles_end ps 0 flat q Ht Hq). lia.
  - destruct ps as [|q0 ps']; cbn [tiles] in Ht.
    + split; auto.
    + destruct Ht as (_ & _ & Hne & _ & rest & Hflat & _).
      split; [discriminate|]. intros Hnil. rewrite Hnil in Hflat.
      symmetry in Hflat. apply app_eq_nil in Hflat. tauto.
Qed.

Lemma parseBook_partition_witness :
  exists q,
    nth_error (parsedParagraphs (parseBook sampleContent)) 1 = Some q
    /\ startIndex q = 2%Z /\ wordCount q = 3%Z
    /\ words q = slice (flatWords (parseBook sampleContent)) 2 (2 + 3).
Proof.
  eexists. split; [vm_compute; reflexivity|].
  split; [reflexivity|]. split; [reflexivity|].
  exact (proj2 (proj2 (proj2 (proj2
    (proj1 (parseBook_partition sampleContent) 1%nat _
       ltac:(vm_compute; reflexivity)))))).
Defined.

(** *** The active paragraph of a parsed book *)

Lemma tiles_locate ps : forall from flat i,
  tiles from ps flat ->
  (from <= i < from + Z.of_nat (length flat))%Z ->
  exists k q,
    nth_error ps k = Some q
    /\ inParagraph i q
    /\ nth_error (words q) (Z.to_nat (i - startIndex q))
       = nth_error flat (Z.to_nat (i - from))
    /\ forall k' q', nth_error ps k' = Some q' -> inParagraph i q' ->
                     k' = k.
Proof.
  induction ps as [|q0 ps IH]; intros from flat i Ht Hi.
  - cbn [tiles] in Ht. subst flat. cbn [length] in Hi. lia.
  - pose proof Ht as Ht0. cbn [tiles] in Ht.
    destruct Ht as (Hs0 & Hc0 & Hne0 & Htx0 & rest & Hflat & Hrest).
    destruct (Z.lt_ge_cases i (from + wordCount q0)) as [Hin|Hout].
    + exists 0%nat, q0. split; [reflexivity|].
      split; [unfold inParagraph; lia|]. split.
      * subst flat. rewrite Hs0. symmetry. apply nth_error_app1. lia.
      * intros [|k'] q' Hq' Hc; [reflexivity|]. exfalso.
        cbn [nth_error] in Hq'.
        destruct (tiles_nth ps _ rest k' q' Hrest Hq') as (H1 & _).
        unfold inParagraph in Hc. lia.
    + assert (Hi' : (from + wordCount q0 <= i
                     < from + wordCount q0 + Z.of_nat (length rest))%Z).
      { subst flat. rewrite length_app in Hi. lia. }
      destruct (IH _ rest i Hrest Hi') as (k & q & Hq & Hc & Hw & Huniq).
      exists (S k), q. split; [exact Hq|]. split; [exact Hc|]. split.
      * rewrite Hw. subst flat. rewrite nth_error_app2 by lia.
        f_equal. lia.
      * intros [|k'] q' Hq' Hc'.
        -- cbn [nth_error] in Hq'. inversion Hq'; subst q'.
           unfold inParagraph in Hc'. lia.
        -- f_equal. apply (Huniq k' q' Hq' Hc').
Qed.

(** X11. In a parsed book every valid word index has its active paragraph:
    [findIndex] finds one, it is the only paragraph whose range contains
    the index, and the token it holds at the index's offset from its
    start is the token of the stream at that index. *)
Theorem active_paragraph_of_index (content : jsstring) (currentIndex : Z) :
  (0 <= currentIndex < Z.of_nat (length (tokenize content)))%Z ->
  let ps := parsedParagraphs (parseBook content) in
  exists q,
    (0 <= ScrollReader.activeParagraphIndex ps currentIndex)%Z
    /\ at_index ps (ScrollReader.activeParagraphIndex ps currentIndex)
       = Some q
    /\ inParagraph currentIndex q
    /\ at_index (words q) (currentIndex - startIndex q)
       = at_index (tokenize content) currentIndex
    /\ forall k q', at_index ps k = Some q' ->
                    inParagraph currentIndex q' ->
                    k = ScrollReader.activeParagraphIndex ps currentIndex.
Proof.
  intros Hi ps.
  pose proof (parseBook_tiles content) as Ht. fold ps in Ht.
  rewrite (proj1 (parseBook_words content)) in Ht.
  destruct (tiles_locate ps 0 _ currentIndex Ht ltac:(lia))
    as (k & q & Hq & Hc & Hw & Huniq).
  unfold ScrollReader.activeParagraphIndex, findIndex.
  destruct (findIndex_from_spec (ScrollReader.containsIndex currentIndex)
              ps 0 ltac:(lia)) as [[_ Hall] | (Hr & [x [Hx Htx]] & _)].
  - exfalso. rewrite Forall_forall in Hall.
    apply nth_error_In in Hq. apply Hall in Hq.
    apply containsIndex_spec in Hc. congruence.
  - set (r := findIndex_from (ScrollReader.containsIndex currentIndex) ps 0)
      in *.
    rewrite Z.sub_0_r in Hx.
    apply containsIndex_spec in Htx.
    assert (Hk : Z.to_nat r = k) by (apply (Huniq _ x Hx Htx)).
    assert (x = q) by congruence. subst x.
    exists q. split; [lia|]. split.
    { unfold at_index. destruct (Z.ltb_spec r 0); [lia | exact Hx]. }
    split; [exact Hc|]. split.
    { unfold at_index.
      destruct (Z.ltb_spec (currentIndex - startIndex q) 0);
        [unfold inParagraph in Hc; lia|].
      destruct (Z.ltb_spec currentIndex 0); [lia|].
      rewrite Hw, Z.sub_0_r. reflexivity. }
    intros k' q' Hq' Hc'. unfold at_index in Hq'.
    destruct (Z.ltb_spec k' 0); [discriminate|].
    pose proof (Huniq _ q' Hq' Hc'). lia.
Qed.

Lemma active_paragraph_of_index_witness :
  exists q,
    at_index (parsedParagraphs (parseBook sampleContent))
             (ScrollReader.activeParagraphIndex
                (parsedParagraphs (parseBook sampleContent)) 3)
    = Some q
    /\ at_index (words q) (3 - startIndex q)
       = at_index (tokenize sampleContent) 3.
Proof.
  assert (Hi : (0 <= 3 < Z.of_nat (length (tokenize sampleContent)))%Z)
    by (vm_compute; split; [discriminate | reflexivity]).
  destruct (active_paragraph_of_index sampleContent 3 Hi)
    as (q & _ & Hq & _ & Hw & _).
  exists q. split; [exact Hq | exact Hw].
Defined.

End Parsing.

(** ** Word counts *)

Section WordCounts.

Import Reader.

(** Without padded glyphs the non-empty pieces of the split are the
    tokens. *)
Lemma split_scan_unpadded s : forall acc inRun,
  unpadded s -> (inRun = true -> acc = []) ->
  filter (fun t => (0 <? length t)%nat) (split_go acc inRun s) = scan acc s.
Proof.
  induction s as [|c s IH]; intros acc inRun Hu Hrun.
  - cbn [split_go scan]. rewrite filter_emit. apply app_nil_r.
  - inversion Hu as [|? ? Hc Hs]; subst. cbn [split_go scan]. rewrite Hc.
    destruct (isSpace c).
    + destruct inRun.
      * rewrite (Hrun eq_refl). apply (IH [] true Hs). reflexivity.
      * rewrite filter_emit. f_equal. apply (IH [] true Hs). reflexivity.
    + apply (IH _ false Hs). discriminate.
Qed.

(** At most two pieces of a split are empty: the first and the last. *)
Lemma split_go_pieces s : forall acc inRun,
  (1 <= length (split_go acc inRun s))%nat
  /\ (length (split_go acc inRun s)
      <= length (filter (fun t => (0 <? length t)%nat)
                        (split_go acc inRun s))
         + (if inRun then 0 else match acc with [] => 1 | _ => 0 end)
         + 1)%nat.
Proof.
  induction s as [|c s IH]; intros acc inRun.
  - cbn [split_go]. rewrite filter_emit. cbn [filter app length].
    destruct acc; cbn [emit length]; destruct inRun; lia.
  - cbn [split_go]. destruct (isSpace c).
    + destruct inRun.
      * apply IH.
      * destruct (IH [] true) as [H1 H2]. cbn iota in H2.
        rewrite filter_emit, length_app.
        cbn [length]. unfold jsstring, char in *.
        destruct acc; cbn [emit length]; lia.
    + destruct (IH (c :: acc) false) as [H1 H2]. cbn iota in H2.
      unfold jsstring, char in *.
      split; [exact H1|]. destruct inRun; destruct acc; lia.
Qed.

(** X12. The word count stored with a book ([split(/\s+/).length]) is
    never 0, not even for an empty text; and for a text without dashes
    and ellipses it is the number of tokens of the word stream, plus at
    most one for leading and one for trailing white space. *)
Theorem countWords_vs_tokens (content : jsstring) :
  (1 <= countWords content)%Z
  /\ (unpadded content ->
      (Z.of_nat (length (tokenize content)) <= countWords content
       <= Z.of_nat (length (tokenize content)) + 2)%Z).
Proof.
  unfold countWords, splitWhitespace.
  destruct (split_go_pieces content [] false) as [H1 H2].
  split; [lia|]. intros Hu.
  rewrite tokenize_scan.
  rewrite <- (split_scan_unpadded content [] false Hu) by discriminate.
  pose proof (filter_length_le (fun t : jsstring => (0 <? length t)%nat)
                (split_go [] false content)) as Hle.
  unfold jsstring, char in *. cbn iota in H2. lia.
Qed.

Lemma countWords_vs_tokens_witness :
  countWords (lit " a note ") = 4%Z
  /\ length (tokenize (lit " a note ")) = 2%nat
  /\ (Z.of_nat (length (tokenize (lit " a note ")))
      <= countWords (lit " a note ")
      <= Z.of_nat (length (tokenize (lit " a note "))) + 2)%Z.
Proof.
  assert (Hu : unpadded (lit " a note "))
    by (repeat constructor).
  split; [reflexivity|]. split; [reflexivity|].
  exact (proj2 (countWords_vs_tokens (lit " a note ")) Hu).
Defined.

End WordCounts.

(** ** Paths inside an EPUB archive *)

Section Paths.

Import Epub.

Lemma splitOn_go_nonempty sep s : forall acc, splitOn_go sep acc s <> [].
Proof.
  induction s as [|c s IH]; intros acc; cbn [splitOn_go].
  - discriminate.
  - destruct (N.eqb c sep); [discriminate | apply IH].
Qed.

Lemma joinWith_cons sep x l :
  l <> [] -> joinWith sep (x :: l) = x ++ sep :: joinWith sep l.
Proof.
  destruct l; [contradiction | reflexivity].
Qed.

Lemma joinWith_app sep l1 : forall l2,
  l1 <> [] -> l2 <> [] ->
  joinWith sep (l1 ++ l2) = joinWith sep l1 ++ sep :: joinWith sep l2.
Proof.
  induction l1 as [|x l1 IH]; intros l2 H1 H2; [contradiction|].
  destruct l1 as [|y l1].
  - cbn [app]. rewrite joinWith_cons by exact H2. reflexivity.
  - change ((x :: y :: l1) ++ l2) with (x :: (y :: l1) ++ l2).
    rewrite joinWith_cons by discriminate.
    rewrite IH by (discriminate || exact H2).
    rewrite (joinWith_cons sep x (y :: l1)) by discriminate.
    rewrite <- app_assoc. reflexivity.
Qed.

(** Splitting and joining on the same separator gives the string back. *)
Lemma joinWith_splitOn_go sep s : forall acc,
  joinWith sep (splitOn_go sep acc s) = rev acc ++ s.
Proof.
  induction s as [|c s IH]; intros acc; cbn [splitOn_go].
  - cbn [joinWith]. symmetry. apply app_nil_r.
  - destruct (N.eqb_spec c sep) as [->|Hc].
    + rewrite joinWith_cons by apply splitOn_go_nonempty.
      rewrite IH. reflexivity.
    + rewrite IH. cbn [rev]. rewrite <- app_assoc. reflexivity.
Qed.

Lemma joinWith_splitOn sep s : joinWith sep (splitOn sep s) = s.
Proof.
  unfold splitOn. apply joinWith_splitOn_go.
Qed.

Lemma splitOn_go_app sep a : forall acc b,
  splitOn_go sep acc (a ++ sep :: b)
  = splitOn_go sep acc a ++ splitOn_go sep [] b.
Proof.
  induction a as [|c a IH]; intros acc b; cbn [app splitOn_go].
  - rewrite N.eqb_refl. reflexivity.
  - destruct (N.eqb c sep); [|apply IH].
    rewrite IH. reflexivity.
Qed.

Lemma splitOn_app sep a b :
  splitOn sep (a ++ sep :: b) = splitOn sep a ++ splitOn sep b.
Proof.
  unfold splitOn. apply splitOn_go_app.
Qed.

Lemma splitOn_go_segment s : forall acc,
  segment s -> splitOn_go slash acc s = [rev acc ++ s].
Proof.
  induction s as [|c s IH]; intros acc Hs; cbn [splitOn_go].
  - rewrite app_nil_r. reflexivity.
  - inversion Hs as [|? ? Hc Hs']; subst. rewrite Hc, IH by exact Hs'.
    cbn [rev]. rewrite <- app_assoc. reflexivity.
Qed.

Lemma splitOn_segment s : segment s -> splitOn slash s = [s].
Proof.
  intros Hs. unfold splitOn. rewrite splitOn_go_segment by exact Hs.
  reflexivity.
Qed.

(** The stack a base directory leaves after the first [pop]. *)
Lemma stack_of_dir dir :
  pop (splitOn slash (dir ++ [slash])) = splitOn slash dir.
Proof.
  rewrite splitOn_app. unfold pop. apply removelast_last.
Qed.

Lemma fold_plain parts : forall stack,
  Forall (fun part => strictEq part (lit ".") = false
                      /\ strictEq part (lit "..") = false) parts ->
  fold_left resolveStep parts stack = stack ++ parts.
Proof.
  induction parts as [|x parts IH]; intros stack H; cbn [fold_left].
  - symmetry. apply app_nil_r.
  - inversion H as [|? ? [H1 H2] H']; subst.
    unfold resolveStep at 2. rewrite H1, H2, IH by exact H'.
    rewrite <- app_assoc. reflexivity.
Qed.

(** [lastIndexOf] answers -1 or a position that holds the unit. *)
Lemma lastIndexOf_from_spec c s : forall i found,
  let r := lastIndexOf_from c s i found in
  r = found
  \/ ((i <= r < i + Z.of_nat (length s))%Z
      /\ nth_error s (Z.to_nat (r - i)) = Some c).
Proof.
  induction s as [|x s IH]; intros i found; cbn [lastIndexOf_from].
  - left. reflexivity.
  - destruct (IH (i + 1)%Z (if N.eqb x c then i else found))
      as [Hr | [Hr Hn]]; cbn zeta in *.
    + destruct (N.eqb_spec x c) as [->|Hx]; [|left; exact Hr].
      right. rewrite Hr, Z.sub_diag. cbn [length Z.to_nat nth_error].
      split; [lia | reflexivity].
    + right. cbn [length]. split; [lia|].
      replace (Z.to_nat (lastIndexOf_from c s (i + 1)
                           (if N.eqb x c then i else found) - i))
        with (S (Z.to_nat (lastIndexOf_from c s (i + 1)
                             (if N.eqb x c then i else found) - (i + 1))))
        by lia.
      exact Hn.
Qed.

Lemma substring_prefix (s : jsstring) (n : Z) :
  (0 <= n <= Z.of_nat (length s))%Z ->
  substring s 0 n = firstn (Z.to_nat n) s.
Proof.
  intros Hn. unfold substring.
  replace (Z.min (Z.max 0 0) (Z.of_nat (length s))) with 0%Z by lia.
  replace (Z.min (Z.max n 0) (Z.of_nat (length s))) with n by lia.
  replace (Z.max 0 n - Z.min 0 n)%Z with n by lia.
  replace (Z.min 0 n) with 0%Z by lia. reflexivity.
Qed.

(** The directory of a path is empty or ends with a slash, and it is a
    prefix of the path. *)
Lemma opfDir_form opfPath :
  (opfDir opfPath = [] \/ exists dir, opfDir opfPath = dir ++ [slash])
  /\ exists name, opfPath = opfDir opfPath ++ name.
Proof.
  unfold opfDir, lastIndexOf.
  destruct (lastIndexOf_from_spec slash opfPath 0 (-1)) as [Hr | [Hr Hn]];
    cbn zeta in *.
  - rewrite Hr. rewrite substring_prefix by lia. cbn [Z.add Z.to_nat firstn].
    split; [left; reflexivity | exists opfPath; reflexivity].
  - set (r := lastIndexOf_from slash opfPath 0 (-1)) in *.
    rewrite Z.sub_0_r in Hn. rewrite substring_prefix by lia.
    replace (Z.to_nat (r + 1)) with (S (Z.to_nat r)) by lia.
    destruct (nth_error_split opfPath (Z.to_nat r) Hn)
      as (l1 & l2 & Hp & Hl).
    assert (E : firstn (S (Z.to_nat r)) opfPath = l1 ++ [slash]).
    { rewrite Hp, <- Hl.
      rewrite firstn_app, firstn_all2 by lia.
      replace (S (length l1) - length l1)%nat with 1%nat by lia.
      reflexivity. }
    rewrite E. split; [right; exists l1; reflexivity|].
    exists l2. rewrite Hp at 1. rewrite <- app_assoc. reflexivity.
Qed.

(** X13. A relative path without [.] and [..] segments resolves to the
    directory of the OPF file followed by the path, whether the OPF file
    lies in a directory or at the root of the archive. *)
Theorem resolvePath_plain (opfPath relative : jsstring) :
  plainPath relative ->
  resolvePath (opfDir opfPath) relative = opfDir opfPath ++ relative.
Proof.
  intros Hplain. unfold resolvePath.
  rewrite fold_plain by exact Hplain.
  destruct (proj1 (opfDir_form opfPath)) as [E | [dir E]]; rewrite E.
  - cbn [splitOn splitOn_go rev pop removelast app].
    apply joinWith_splitOn.
  - rewrite stack_of_dir.
    rewrite joinWith_app
      by (unfold splitOn; apply splitOn_go_nonempty).
    rewrite !joinWith_splitOn, <- app_assoc. reflexivity.
Qed.

Lemma resolvePath_plain_witness :
  opfDir (lit "OEBPS/content.opf") = lit "OEBPS/"
  /\ resolvePath (opfDir (lit "OEBPS/content.opf")) (lit "text/ch1.xhtml")
     = lit "OEBPS/text/ch1.xhtml".
Proof.
  assert (Hplain : plainPath (lit "text/ch1.xhtml"))
    by (repeat constructor).
  split; [reflexivity|].
  exact (resolvePath_plain (lit "OEBPS/content.opf") (lit "text/ch1.xhtml")
           Hplain).
Defined.

(** X14. Dot segments: a leading [./] changes nothing; a leading [../]
    drops the last directory of the base; and at the root of the archive
    it is ignored, the path never leaves the archive. *)
Theorem resolvePath_dots (dir seg relative : jsstring) :
  segment seg ->
  resolvePath (dir ++ [slash]) (lit "./" ++ relative)
  = resolvePath (dir ++ [slash]) relative
  /\ resolvePath (dir ++ slash :: seg ++ [slash]) (lit "../" ++ relative)
     = resolvePath (dir ++ [slash]) relative
  /\ resolvePath (seg ++ [slash]) (lit "../" ++ relative)
     = resolvePath [] relative
  /\ resolvePath [] (lit "../" ++ relative) = resolvePath [] relative.
Proof.
  intros Hseg.
  assert (Hdot : splitOn slash (lit "./" ++ relative)
                 = lit "." :: splitOn slash relative).
  { change (lit "./" ++ relative) with (lit "." ++ slash :: relative).
    rewrite splitOn_app. reflexivity. }
  assert (Hup : splitOn slash (lit "../" ++ relative)
                = lit ".." :: splitOn slash relative).
  { change (lit "../" ++ relative) with (lit ".." ++ slash :: relative).
    rewrite splitOn_app. reflexivity. }
  unfold resolvePath. rewrite Hdot, Hup. cbn [fold_left].
  repeat split.
  - replace (dir ++ slash :: seg ++ [slash])
      with ((dir ++ slash :: seg) ++ [slash])
      by (rewrite <- app_assoc; reflexivity).
    rewrite !stack_of_dir, splitOn_app, (splitOn_segment seg Hseg).
    unfold resolveStep at 2. cbn [strictEq lit map list_ascii_of_string
      N_of_ascii N.eqb Pos.eqb andb].
    unfold pop. rewrite removelast_last. reflexivity.
  - rewrite stack_of_dir, (splitOn_segment seg Hseg). reflexivity.
Qed.

Lemma resolvePath_dots_witness :
  resolvePath (lit "OEBPS/text/") (lit "../images/cover.jpg")
  = resolvePath (lit "OEBPS/") (lit "images/cover.jpg")
  /\ resolvePath (lit "OEBPS/") (lit "images/cover.jpg")
     = lit "OEBPS/images/cover.jpg".
Proof.
  assert (Hseg : segment (lit "text")) by (repeat constructor).
  split; [|reflexivity].
  exact (proj1 (proj2
    (resolvePath_dots (lit "OEBPS") (lit "text") (lit "images/cover.jpg")
       Hseg))).
Defined.

End Paths.

(** ** The library *)

Section Library.

Import App.

Lemma strictEq_spec (a b : jsstring) : strictEq a b = true <-> a = b.
Proof.
  revert b. induction a as [|x a IH]; intros [|y b]; cbn [strictEq];
    try (split; [discriminate | discriminate]); [tauto|].
  rewrite andb_true_iff, N.eqb_eq, IH. split.
  - intros [-> ->]. reflexivity.
  - intros H. inversion H. auto.
Qed.

Lemma strictEq_refl (a : jsstring) : strictEq a a = true.
Proof.
  apply strictEq_spec. reflexivity.
Qed.

Lemma strictEq_neq (a b : jsstring) : strictEq a b = false <-> a <> b.
Proof.
  rewrite <- strictEq_spec. destruct (strictEq a b); split;
    congruence.
Qed.

Lemma find_map_other (f : Book -> Book) (other : jsstring) bs :
  (forall b, id (f b) = id b) ->
  (forall b, id b = other -> In b bs -> f b = b) ->
  find (fun b => strictEq (id b) other) (map f bs)
  = find (fun b => strictEq (id b) other) bs.
Proof.
  intros Hid Hsame. induction bs as [|b bs IH]; [reflexivity|].
  cbn [map find]. rewrite Hid.
  destruct (strictEq (id b) other) eqn:E.
  - f_equal. apply Hsame; [apply strictEq_spec; exact E | left; reflexivity].
  - apply IH. intros b' Hb' Hin. apply Hsame; [exact Hb' | right; exact Hin].
Qed.

(** X15. Storing progress: the book that is open afterwards is the one
    that was open, with the new progress and nothing else changed; a
    lookup of any other book gives what it gave before; and the list
    keeps its books' ids in their order. *)
Theorem handleUpdateProgress_lookup (bookId : jsstring) (p : Q) (s : State) :
  let s' := handleUpdateProgress bookId p s in
  map id (books s') = map id (books s)
  /\ view s' = view s /\ currentBookId s' = currentBookId s
  /\ find (fun b => strictEq (id b) bookId) (books s')
     = option_map (withProgress p)
         (find (fun b => strictEq (id b) bookId) (books s))
  /\ (forall other, other <> bookId ->
        find (fun b => strictEq (id b) other) (books s')
        = find (fun b => strictEq (id b) other) (books s))
  /\ (currentBookId s = Some bookId ->
      currentBook s' = option_map (withProgress p) (currentBook s)).
Proof.
  intros s'. subst s'. unfold handleUpdateProgress.
  cbn [books view currentBookId].
  assert (Hfind :
    find (fun b => strictEq (id b) bookId)
         (map (fun b => if strictEq (id b) bookId then withProgress p b else b)
              (books s))
    = option_map (withProgress p)
        (find (fun b => strictEq (id b) bookId) (books s))).
  { induction (books s) as [|b bs IH]; [reflexivity|].
    cbn [map find]. destruct (strictEq (id b) bookId) eqn:E.
    - cbn [withProgress id]. rewrite E. reflexivity.
    - rewrite E. exact IH. }
  split; [|split; [reflexivity|split; [reflexivity|split; [exact Hfind|]]]];
    [|split].
  - rewrite map_map. apply map_ext. intros b.
    destruct (strictEq (id b) bookId); reflexivity.
  - intros other Hne. apply find_map_other.
    + intros b. destruct (strictEq (id b) bookId); reflexivity.
    + intros b Hb _. subst other.
      apply strictEq_neq in Hne. rewrite Hne. reflexivity.
  - intros Hcur. unfold currentBook. cbn [currentBookId books].
    rewrite Hcur. exact Hfind.
Qed.

Lemma handleUpdateProgress_lookup_witness :
  currentBook (handleUpdateProgress (lit "b2") 0.5 sampleLibrary)
  = Some (withProgress 0.5 (sampleBook "b2" "Note" (Some favorites))).
Proof.
  exact (proj2 (proj2 (proj2 (proj2 (proj2
    (handleUpdateProgress_lookup (lit "b2") 0.5 sampleLibrary))))) eq_refl).
Defined.

(** X16. Deleting a book: no book with the id is left, a lookup of any
    other book gives what it gave before, and the reader is closed (back
    to the library, no current book) exactly when the deleted book was
    the open one. *)
Theorem handleDeleteBook_lookup (bookId : jsstring) (s : State) :
  let s' := handleDeleteBook bookId s in
  find (fun b => strictEq (id b) bookId) (books s') = None
  /\ (forall other, other <> bookId ->
        find (fun b => strictEq (id b) other) (books s')
        = find (fun b => strictEq (id b) other) (books s))
  /\ (currentBookId s = Some bookId ->
      view s' = LIBRARY /\ currentBookId s' = None /\ currentBook s' = None)
  /\ (currentBookId s <> Some bookId ->
      view s' = view s /\ currentBookId s' = currentBookId s
      /\ currentBook s' = currentBook s).
Proof.
  intros s'.
  assert (Hbooks : books s'
                   = filter (fun b => negb (strictEq (id b) bookId)) (books s)).
  { subst s'. unfold handleDeleteBook. destruct (isCurrent bookId s);
      reflexivity. }
  assert (Hgone : find (fun b => strictEq (id b) bookId) (books s') = None).
  { rewrite Hbooks. clear Hbooks.
    induction (books s) as [|b bs IH]; [reflexivity|].
    cbn [filter]. destruct (strictEq (id b) bookId) eqn:E; cbn [negb];
      [exact IH|]. cbn [find]. rewrite E. exact IH. }
  assert (Hother : forall other, other <> bookId ->
            find (fun b => strictEq (id b) other) (books s')
            = find (fun b => strictEq (id b) other) (books s)).
  { intros other Hne. rewrite Hbooks. clear Hbooks Hgone.
    induction (books s) as [|b bs IH]; [reflexivity|].
    cbn [filter find]. destruct (strictEq (id b) bookId) eqn:E; cbn [negb].
    - apply strictEq_spec in E.
      assert (Hb : strictEq (id b) other = false)
        by (apply strictEq_neq; congruence).
      rewrite Hb. exact IH.
    - cbn [find]. destruct (strictEq (id b) other); [reflexivity | exact IH]. }
  split; [exact Hgone|]. split; [exact Hother|]. split.
  - intros Hcur. subst s'. unfold handleDeleteBook, isCurrent.
    rewrite Hcur, strictEq_refl. auto.
  - intros Hcur.
    assert (Hc : isCurrent bookId s = false).
    { unfold isCurrent. destruct (currentBookId s) as [c|]; [|reflexivity].
      apply strictEq_neq. congruence. }
    assert (Hv : view s' = view s /\ currentBookId s' = currentBookId s).
    { subst s'. unfold handleDeleteBook. rewrite Hc. auto. }
    destruct Hv as [Hv1 Hv2]. split; [exact Hv1|]. split; [exact Hv2|].
    unfold currentBook. rewrite Hv2.
    destruct (currentBookId s) as [c|]; [|reflexivity].
    apply Hother. congruence.
Qed.

Lemma handleDeleteBook_lookup_witness :
  view (handleDeleteBook (lit "b2") sampleLibrary) = LIBRARY
  /\ currentBook (handleDeleteBook (lit "b1") sampleLibrary)
     = currentBook sampleLibrary.
Proof.
  split.
  - exact (proj1 (proj1 (proj2 (proj2
      (handleDeleteBook_lookup (lit "b2") sampleLibrary))) eq_refl)).
  - assert (Hne : currentBookId sampleLibrary <> Some (lit "b1"))
      by discriminate.
    exact (proj2 (proj2 (proj2 (proj2 (proj2
      (handleDeleteBook_lookup (lit "b1") sampleLibrary))) Hne))).
Defined.

Lemma folderEq_spec (a b : BookFolder) : folderEq a b = true <-> a = b.
Proof.
  destruct a, b; cbn; split; congruence.
Qed.

Lemma moveBook_id bookId t b : id (moveBook bookId t b) = id b.
Proof.
  unfold moveBook. destruct (negb _); [reflexivity|].
  destruct (match folder b with Some f => folderEq f t | None => false end);
    reflexivity.
Qed.

Lemma moveBook_other bookId t b : id b <> bookId -> moveBook bookId t b = b.
Proof.
  intros Hne. unfold moveBook. apply strictEq_neq in Hne. rewrite Hne.
  reflexivity.
Qed.

(** Moving a book that is not in the target folder puts it there; moving
    it there once more sends it to its default folder. *)
Lemma moveBook_twice bookId t b :
  id b = bookId -> folder b <> Some t ->
  moveBook bookId t b = withFolder t b
  /\ moveBook bookId t (moveBook bookId t b) = withFolder (defaultFolder b) b.
Proof.
  intros Hid Hf.
  assert (H1 : moveBook bookId t b = withFolder t b).
  { unfold moveBook. rewrite Hid, strictEq_refl. cbn [negb].
    destruct (folder b) as [f|]; [|reflexivity].
    destruct (folderEq f t) eqn:E; [|reflexivity].
    apply folderEq_spec in E. congruence. }
  split; [exact H1|]. rewrite H1. unfold moveBook.
  cbn [withFolder id folder]. rewrite Hid, strictEq_refl. cbn [negb].
  assert (E : folderEq t t = true) by (apply folderEq_spec; reflexivity).
  rewrite E. reflexivity.
Qed.

(** X17. Moving a book between folders: the other books, the ids and
    their order are untouched; a book moved to a folder it is not in goes
    there, and moved there again it goes to its default folder (notes for
    a note, the library otherwise); so toggling a folder on and off a
    book that sat in its default folder restores the whole library. *)
Theorem handleMoveBook_toggle (bookId : jsstring) (t : BookFolder)
        (s : State) :
  let s1 := handleMoveBook bookId t s in
  let s2 := handleMoveBook bookId t s1 in
  map id (books s1) = map id (books s)
  /\ (forall other, other <> bookId ->
        find (fun b => strictEq (id b) other) (books s1)
        = find (fun b => strictEq (id b) other) (books s))
  /\ (forall i b, nth_error (books s) i = Some b -> id b = bookId ->
        folder b <> Some t ->
        nth_error (books s1) i = Some (withFolder t b)
        /\ nth_error (books s2) i = Some (withFolder (defaultFolder b) b))
  /\ ((forall b, In b (books s) -> id b = bookId ->
         folder b = Some (defaultFolder b) /\ defaultFolder b <> t) ->
      s2 = s).
Proof.
  intros s1 s2. subst s2 s1. unfold handleMoveBook.
  cbn [books view currentBookId].
  split; [|split; [|split]].
  - rewrite map_map. apply map_ext. intros b. apply moveBook_id.
  - intros other Hne. apply find_map_other.
    + intros b. apply moveBook_id.
    + intros b Hb _. apply moveBook_other. congruence.
  - intros i b Hb Hid Hf.
    destruct (moveBook_twice bookId t b Hid Hf) as [H1 H2].
    rewrite map_map, !nth_error_map, Hb. cbn [option_map].
    rewrite H1. split; [reflexivity|]. rewrite <- H1, H2. reflexivity.
  - intros Hdef. destruct s as [v bs c]. cbn [books view currentBookId] in *.
    f_equal. rewrite map_map. rewrite <- (map_id bs) at 2.
    apply map_ext_in. intros b Hin.
    destruct (strictEq (id b) bookId) eqn:E.
    + apply strictEq_spec in E. destruct (Hdef b Hin E) as [Hf Hne].
      assert (Hf' : folder b <> Some t) by congruence.
      rewrite (proj2 (moveBook_twice bookId t b E Hf')).
      destruct b. cbn [folder] in Hf. unfold withFolder.
      cbn [id title author content coverUrl progress wordCount lastRead
           isGenerated folder].
      f_equal. symmetry. exact Hf.
    + apply strictEq_neq in E. rewrite (moveBook_other bookId t b E).
      apply (moveBook_other bookId t b E).
Qed.

Lemma handleMoveBook_toggle_witness :
  handleMoveBook (lit "b1") favorites
    (handleMoveBook (lit "b1") favorites sampleLibrary)
  = sampleLibrary.
Proof.
  apply (proj2 (proj2 (proj2
    (handleMoveBook_toggle (lit "b1") favorites sampleLibrary)))).
  intros b [<- | [<- | [<- | []]]] Hid;
    try (exfalso; revert Hid; discriminate).
  split; [reflexivity | discriminate].
Defined.


(** X19. The four folder sections of the library view partition the
    books: every book is listed in exactly one section (a book without a
    folder in the library), so the sections together hold as many books
    as the list. *)
Theorem folder_sections_partition (bs : list Book) :
  (length (folderBooks favorites bs) + length (folderBooks library bs)
   + length (folderBooks notes bs) + length (folderBooks read bs)
   = length bs)%nat
  /\ forall b, In b bs ->
       exists f, In b (folderBooks f bs)
                 /\ forall g, In b (folderBooks g bs) -> g = f.
Proof.
  split.
  - induction bs as [|b bs IH]; [reflexivity|].
    unfold folderBooks in *. cbn [filter].
    destruct (folder b) as [[| | |]|]; cbn [folderEq length]; lia.
  - intros b Hin.
    exists (match folder b with Some f => f | None => library end).
    split.
    + unfold folderBooks. apply filter_In. split; [exact Hin|].
      destruct (folder b) as [[| | |]|]; reflexivity.
    + intros g Hg. unfold folderBooks in Hg. apply filter_In in Hg.
      destruct Hg as [_ Hg].
      destruct g, (folder b) as [[| | |]|]; cbn in Hg;
        try discriminate; reflexivity.
Qed.

Lemma folder_sections_partition_witness :
  exists f,
    In (sampleBook "b3" "Cy" None) (folderBooks f (books sampleLibrary))
    /\ f = library.
Proof.
  assert (Hin : In (sampleBook "b3" "Cy" None) (books sampleLibrary))
    by (right; right; left; reflexivity).
  destruct (proj2 (folder_sections_partition (books sampleLibrary)) _ Hin)
    as (f & Hf & Huniq).
  exists f. split; [exact Hf|].
  symmetry. apply Huniq.
  unfold folderBooks. apply filter_In. split; [exact Hin | reflexivity].
Defined.

End Library.

(** ** Generated covers *)

Section Covers.

Import Cover.

Lemma jsRem_abs_range (x m : Z) :
  (0 < m)%Z -> (0 <= jsRem (Z.abs x) m < m)%Z.
Proof.
  intros Hm. unfold jsRem. apply Z.rem_bound_pos; lia.
Qed.

(** X20. Whatever the title, the generated design stays inside the ranges
    the code intends: the hues are angles below 360, the saturation lies
    in 20..59, the lightness in 15..34, the shape position in 0..99, the
    shape scale in [0.5, 1.5), and the layout index is one of the four
    layouts. *)
Theorem design_ranges (title : jsstring) :
  let d := design title in
  (0 <= hue d < 360)%Z
  /\ (0 <= accentHue d < 360)%Z
  /\ (20 <= sat d < 60)%Z
  /\ (15 <= lightness d < 35)%Z
  /\ (0 <= layoutIndex d < 4)%Z
  /\ (0 <= shapePos d < 100)%Z
  /\ 0.5 <= shapeScale d /\ shapeScale d < 1.5.
Proof.
  intros d. subst d. unfold design.
  cbn [hue accentHue sat lightness layoutIndex shapePos shapeScale].
  set (hash := titleHash title).
  assert (Hhue : (0 <= Z.abs (jsRem hash 360) < 360)%Z).
  { unfold jsRem. pose proof (Z.rem_bound_abs hash 360 ltac:(lia)). lia. }
  pose proof (jsRem_abs_range (sar hash 2) 40 ltac:(lia)).
  pose proof (jsRem_abs_range (sar hash 4) 20 ltac:(lia)).
  pose proof (jsRem_abs_range (sar hash 3) 4 ltac:(lia)).
  pose proof (jsRem_abs_range (sar hash 5) 100 ltac:(lia)).
  pose proof (jsRem_abs_range (sar hash 6) 100 ltac:(lia)) as Hs.
  assert (Hacc : (0 <= jsRem (Z.abs (jsRem hash 360) + 45) 360 < 360)%Z).
  { unfold jsRem at 1. apply Z.rem_bound_pos; lia. }
  repeat split; try lia.
  - set (r := jsRem (Z.abs (sar hash 6)) 100) in *.
    cbv [Qle Qplus Qdiv Qmult Qinv inject_Z Qnum Qden]. lia.
  - set (r := jsRem (Z.abs (sar hash 6)) 100) in *.
    cbv [Qlt Qplus Qdiv Qmult Qinv inject_Z Qnum Qden]. lia.
Qed.

End Covers.
